(** * RtspRestreamServer: the path/session bookkeeping of [Server::Private]

    A shallow embedding of [src/RestreamServerLib/Server.cpp]: the two maps
    [clients] and [paths], the admission checks [beforePlay] / [beforeRecord],
    and the handlers [onPlay], [onRecord], [onTeardown], [onClientClosed],
    followed by the properties of the specification that concern them.

    Conventions of the embedding.
    - A [GstRTSPClient*] handed to a handler by a GLib signal is the address
      of a live object, hence non-null: a [ClientId] is a [positive].  The
      nullable member [PathInfo::recordClient] is an [option ClientId], with
      [nullptr] as [None].
    - [unsigned] is [N] with the wrap-around of [++] and [--] written out.
    - [std::map] is [gmap], [std::set] is [gset]; iterating a
      [std::set<std::string>] visits the keys in increasing order, which
      [set_order] reproduces.
    - Calls of [Log()] are not modelled.  A call of one of the four
      notification members is recorded in the list of [Notification]s a
      handler returns; an [assert] that evaluates to false is recorded in a
      list of [Assertion]s and execution goes on, as in a build with
      [NDEBUG]. *)

From Stdlib Require Import NArith String Lia.
From stdpp Require Import base option gmap strings list sorting fin_sets fin_maps.

Local Open Scope string_scope.
Local Open Scope N_scope.

(** ** Identifiers and machine integers *)

Abbreviation ClientId := positive (only parsing).
Abbreviation PathId := string (only parsing).
Abbreviation SessionId := string (only parsing).

Definition UINT_MAX : N := 4294967295.

(** [++n] on an [unsigned]. *)
Definition u32_incr (n : N) : N := if n =? UINT_MAX then 0 else n + 1.

(** [--n] on an [unsigned]. *)
Definition u32_decr (n : N) : N := if n =? 0 then UINT_MAX else n - 1.

(** ** The store *)

Record ClientInfo := mkClientInfo {
  refPaths : gset PathId
}.

Record PathInfo := mkPathInfo {
  refClients : gset ClientId;
  playCount : N;
  recordClient : option ClientId;
  recordSessionId : SessionId
}.

Record Private := mkPrivate {
  maxPathsCount : N;
  maxClientsPerPath : N;
  clients : gmap ClientId ClientInfo;
  paths : gmap PathId PathInfo
}.

#[export] Instance ClientInfo_eq_dec : EqDecision ClientInfo.
Proof. solve_decision. Defined.

#[export] Instance PathInfo_eq_dec : EqDecision PathInfo.
Proof. solve_decision. Defined.

#[export] Instance Private_eq_dec : EqDecision Private.
Proof. solve_decision. Defined.

Definition set_refClients (s : gset ClientId) (pi : PathInfo) : PathInfo :=
  mkPathInfo s (playCount pi) (recordClient pi) (recordSessionId pi).

Definition set_playCount (n : N) (pi : PathInfo) : PathInfo :=
  mkPathInfo (refClients pi) n (recordClient pi) (recordSessionId pi).

Definition set_recorder (c : option ClientId) (s : SessionId) (pi : PathInfo) : PathInfo :=
  mkPathInfo (refClients pi) (playCount pi) c s.

Definition set_paths (ps : gmap PathId PathInfo) (st : Private) : Private :=
  mkPrivate (maxPathsCount st) (maxClientsPerPath st) (clients st) ps.

(** The store of a freshly constructed [Server::Private]. *)
Definition initial (maxPaths maxClients : N) : Private :=
  mkPrivate maxPaths maxClients ∅ ∅.

(** ** What the engine hands to the handlers *)

Record GstRTSPUrl := mkUrl {
  abspath : PathId
}.

(** [token] is the media-factory-role string of [ctx->token], [None] when
    the context carries no token. *)
Record GstRTSPContext := mkContext {
  uri : GstRTSPUrl;
  token : option string
}.

Inductive GstRTSPStatusCode :=
  | GST_RTSP_STS_OK
  | GST_RTSP_STS_FORBIDDEN
  | GST_RTSP_STS_SERVICE_UNAVAILABLE.

Definition status_number (s : GstRTSPStatusCode) : N :=
  match s with
  | GST_RTSP_STS_OK => 200
  | GST_RTSP_STS_FORBIDDEN => 403
  | GST_RTSP_STS_SERVICE_UNAVAILABLE => 503
  end.

#[export] Instance GstRTSPStatusCode_eq_dec : EqDecision GstRTSPStatusCode.
Proof. solve_decision. Defined.

(** ** Notifications and assertions *)

Inductive Notification :=
  | firstPlayerConnected (user : string) (path : PathId)
  | lastPlayerDisconnected (path : PathId)
  | recorderConnected (user : string) (path : PathId)
  | recorderDisconnected (path : PathId).

#[export] Instance Notification_eq_dec : EqDecision Notification.
Proof. solve_decision. Defined.

(** The three [assert]s of [onClientClosed], named by the line they guard. *)
Inductive Assertion :=
  | lastRefPlayCount (path : PathId) (n : N)
      (* line 429: playCount == 0 || playCount == 1, last reference, no recorder *)
  | lastRefIsRecorder (path : PathId)
      (* line 435: recordClient == client *)
  | recorderLeftPlayCount (path : PathId) (n : N).
      (* line 454: playCount == 0 || playCount == 1, one reference left, recorder set *)

#[export] Instance Assertion_eq_dec : EqDecision Assertion.
Proof. solve_decision. Defined.

(** [Server::Private::user]. *)
Definition user (ctx : GstRTSPContext) : string :=
  match token ctx with
  | Some role => role
  | None => ""
  end.

(** ** Lookups *)

(** [Server::Private::isRecording]; the [client] argument is unused there. *)
Definition isRecording (st : Private) (client : ClientId) (path : PathId) : bool :=
  match paths st !! path with
  | None => false
  | Some pathInfo =>
      bool_decide (is_Some (recordClient pathInfo))
      || negb (String.eqb (recordSessionId pathInfo) "")
  end.

(** [Server::Private::registerPath].  The [PathInfo&] it returns is the
    entry of [path] in the new store, returned beside it. *)
Definition registerPath (client : ClientId) (path : PathId) (st : Private)
  : Private * PathInfo :=
  let clients' :=
    match clients st !! client with
    | None => <[client := mkClientInfo {[path]}]> (clients st)
    | Some ci => <[client := mkClientInfo (refPaths ci ∪ {[path]})]> (clients st)
    end in
  let pathInfo :=
    match paths st !! path with
    | None => mkPathInfo {[client]} 0 None ""
    | Some pi => set_refClients (refClients pi ∪ {[client]}) pi
    end in
  (mkPrivate (maxPathsCount st) (maxClientsPerPath st) clients'
     (<[path := pathInfo]> (paths st)),
   pathInfo).

(** Writing through a [PathInfo&]. *)
Definition store_path (path : PathId) (pi : PathInfo) (st : Private) : Private :=
  set_paths (<[path := pi]> (paths st)) st.

(** ** Admission checks *)

(** [Server::Private::beforePlay]. *)
Definition beforePlay (st : Private) (client : ClientId) (url : GstRTSPUrl)
    (sessionId : SessionId) : GstRTSPStatusCode :=
  let path := abspath url in
  match paths st !! path with
  | Some pathInfo =>
      if (0 <? maxClientsPerPath st)
         && (u32_decr (maxClientsPerPath st) <=? playCount pathInfo)
      then GST_RTSP_STS_FORBIDDEN
      else GST_RTSP_STS_OK
  | None => GST_RTSP_STS_OK
  end.

(** [Server::Private::beforeRecord]. *)
Definition beforeRecord (st : Private) (client : ClientId) (url : GstRTSPUrl)
    (sessionId : SessionId) : GstRTSPStatusCode :=
  if isRecording st client (abspath url)
  then GST_RTSP_STS_SERVICE_UNAVAILABLE
  else GST_RTSP_STS_OK.

(** ** Handlers *)

(** [Server::Private::onPlay]. *)
Definition onPlay (st : Private) (client : ClientId) (ctx : GstRTSPContext)
    (sessionId : SessionId) : Private * list Notification :=
  let path := abspath (uri ctx) in
  let '(st1, pathInfo) := registerPath client path st in
  let pathInfo' := set_playCount (u32_incr (playCount pathInfo)) pathInfo in
  (store_path path pathInfo' st1,
   if playCount pathInfo' =? 1 then [firstPlayerConnected (user ctx) path] else []).

(** [Server::Private::onRecord]. *)
Definition onRecord (st : Private) (client : ClientId) (ctx : GstRTSPContext)
    (sessionId : SessionId) : Private * list Notification :=
  let path := abspath (uri ctx) in
  let '(st1, pathInfo) := registerPath client path st in
  if bool_decide (is_Some (recordClient pathInfo))
     || negb (String.eqb (recordSessionId pathInfo) "")
  then (st1, [])
  else (store_path path (set_recorder (Some client) sessionId pathInfo) st1,
        [recorderConnected (user ctx) path]).

(** [Server::Private::onTeardown]. *)
Definition onTeardown (st : Private) (client : ClientId) (url : GstRTSPUrl)
    (sessionId : SessionId) : Private * list Notification :=
  let path := abspath url in
  match paths st !! path with
  | None => (st, [])
  | Some pathInfo =>
      if bool_decide (Some client = recordClient pathInfo)
         && String.eqb sessionId (recordSessionId pathInfo)
      then (store_path path (set_recorder None "" pathInfo) st,
            [recorderDisconnected path])
      else if 0 <? playCount pathInfo
      then
        let pathInfo' := set_playCount (u32_decr (playCount pathInfo)) pathInfo in
        (store_path path pathInfo' st,
         if playCount pathInfo' =? 0 then [lastPlayerDisconnected path] else [])
      else (st, [])
  end.

(** The order in which a range-for visits a [std::set<std::string>]. *)
Definition string_le (a b : string) : Prop := String.leb a b = true.

#[export] Instance string_le_dec : RelDecision string_le.
Proof. intros a b. unfold string_le. apply _. Defined.

Definition set_order (s : gset PathId) : list PathId :=
  merge_sort string_le (elements s).

(** What one turn of the loop of [onClientClosed] does to the entry of
    [path]: the entry left behind ([None] when it is erased), the
    notifications and the assertions that failed. *)
Definition closeEntry (client : ClientId) (path : PathId) (pathInfo : PathInfo)
  : option PathInfo * list Notification * list Assertion :=
  let pi0 := set_refClients (refClients pathInfo ∖ {[client]}) pathInfo in
  if decide (refClients pi0 = ∅) then
    match recordClient pi0 with
    | None =>
        let bad :=
          if (playCount pi0 =? 0) || (playCount pi0 =? 1) then []
          else [lastRefPlayCount path (playCount pi0)] in
        if playCount pi0 =? 1
        then (None, [lastPlayerDisconnected path], bad)
        else (None, [], bad)
    | Some rc =>
        (None, [recorderDisconnected path],
         if decide (rc = client) then [] else [lastRefIsRecorder path])
    end
  else
    let '(pi1, out1) :=
      if bool_decide (Some client = recordClient pi0)
      then (set_recorder None "" pi0, [recorderDisconnected path])
      else (pi0, []) in
    if (size (refClients pi1) =? 1)%nat then
      match recordClient pi1 with
      | Some _ =>
          let bad :=
            if (playCount pi1 =? 0) || (playCount pi1 =? 1) then []
            else [recorderLeftPlayCount path (playCount pi1)] in
          if playCount pi1 =? 1
          then (Some (set_playCount (u32_decr (playCount pi1)) pi1),
                (out1 ++ [lastPlayerDisconnected path])%list, bad)
          else (Some pi1, out1, bad)
      | None => (Some pi1, out1, [])
      end
    else (Some pi1, out1, []).

(** The body of the range-for of [onClientClosed]. *)
Definition closeRef (client : ClientId)
    (acc : gmap PathId PathInfo * list Notification * list Assertion)
    (path : PathId) : gmap PathId PathInfo * list Notification * list Assertion :=
  let '(ps, out, bad) := acc in
  match ps !! path with
  | None => acc
  | Some pathInfo =>
      let '(entry, out', bad') := closeEntry client path pathInfo in
      (match entry with
       | Some pi => <[path := pi]> ps
       | None => delete path ps
       end,
       (out ++ out')%list, (bad ++ bad')%list)
  end.

(** [Server::Private::onClientClosed]. *)
Definition onClientClosed (st : Private) (client : ClientId)
  : Private * list Notification * list Assertion :=
  match clients st !! client with
  | None => (st, [], [])
  | Some ci =>
      let '(ps, out, bad) :=
        foldl (closeRef client) (paths st, [], []) (set_order (refPaths ci)) in
      (mkPrivate (maxPathsCount st) (maxClientsPerPath st)
         (delete client (clients st)) ps,
       out, bad)
  end.

(** ** Events and runs *)

(** The signals [onClientConnected] connects, and [client-connected] itself. *)
Inductive Event :=
  | EvClientConnected (client : ClientId)
  | EvPrePlay (client : ClientId) (url : GstRTSPUrl) (sessionId : SessionId)
  | EvPlay (client : ClientId) (ctx : GstRTSPContext) (sessionId : SessionId)
  | EvPreRecord (client : ClientId) (url : GstRTSPUrl) (sessionId : SessionId)
  | EvRecord (client : ClientId) (ctx : GstRTSPContext) (sessionId : SessionId)
  | EvTeardown (client : ClientId) (url : GstRTSPUrl) (sessionId : SessionId)
  | EvClosed (client : ClientId).

(** One event on the store.  [onClientConnected] only connects signals, and
    the two admission checks only read. *)
Definition step (st : Private) (e : Event)
  : Private * list Notification * list Assertion :=
  match e with
  | EvClientConnected _ => (st, [], [])
  | EvPrePlay _ _ _ => (st, [], [])
  | EvPlay client ctx sessionId =>
      let '(st', out) := onPlay st client ctx sessionId in (st', out, [])
  | EvPreRecord _ _ _ => (st, [], [])
  | EvRecord client ctx sessionId =>
      let '(st', out) := onRecord st client ctx sessionId in (st', out, [])
  | EvTeardown client url sessionId =>
      let '(st', out) := onTeardown st client url sessionId in (st', out, [])
  | EvClosed client => onClientClosed st client
  end.

Fixpoint run (st : Private) (evs : list Event)
  : Private * list Notification * list Assertion :=
  match evs with
  | [] => (st, [], [])
  | e :: evs' =>
      let '(st1, out1, bad1) := step st e in
      let '(st2, out2, bad2) := run st1 evs' in
      (st2, (out1 ++ out2)%list, (bad1 ++ bad2)%list)
  end.

Definition state_after (st : Private) (evs : list Event) : Private := (run st evs).1.1.
Definition emitted (st : Private) (evs : list Event) : list Notification := (run st evs).1.2.
Definition failed (st : Private) (evs : list Event) : list Assertion := (run st evs).2.

(** An [EvPlay] comes right after an [EvPrePlay] on the same path that
    answered OK in the store [st]; [prev] is the event before [e]. *)
Definition gate_ok (st : Private) (prev : option Event) (e : Event) : bool :=
  match e with
  | EvPlay _ ctx _ =>
      match prev with
      | Some (EvPrePlay c url s) =>
          bool_decide (abspath url = abspath (uri ctx))
          && bool_decide (beforePlay st c url s = GST_RTSP_STS_OK)
      | _ => false
      end
  | _ => true
  end.

(** Every [EvPlay] of the run is gated; [prev] is the event before [evs]. *)
Fixpoint play_gated (st : Private) (prev : option Event) (evs : list Event) : bool :=
  match evs with
  | [] => true
  | e :: evs' => gate_ok st prev e && play_gated (step st e).1.1 (Some e) evs'
  end.

(** ** Views of the store used in the statements *)

(** [clients[c].ref_paths], empty when [c] has no entry. *)
Definition ref_paths_of (st : Private) (c : ClientId) : gset PathId :=
  match clients st !! c with
  | Some ci => refPaths ci
  | None => ∅
  end.

(** [paths[p].ref_clients], empty when [p] has no entry. *)
Definition ref_clients_of (st : Private) (p : PathId) : gset ClientId :=
  match paths st !! p with
  | Some pi => refClients pi
  | None => ∅
  end.

(** The entry [registerPath] starts from: the one in the map, or the one
    it would emplace. *)
Definition entry_or_fresh (st : Private) (p : PathId) : PathInfo :=
  match paths st !! p with
  | Some pi => pi
  | None => mkPathInfo ∅ 0 None ""
  end.

(** The test [pathInfo.recordClient || !pathInfo.recordSessionId.empty()]. *)
Definition recorder_marked (pi : PathInfo) : Prop :=
  is_Some (recordClient pi) ∨ recordSessionId pi ≠ "".

#[export] Instance recorder_marked_dec pi : Decision (recorder_marked pi).
Proof. unfold recorder_marked. apply _. Defined.

(** The entry of [path] once [onPlay] has run for [client]. *)
Definition played_entry (st : Private) (client : ClientId) (path : PathId) : PathInfo :=
  let e := entry_or_fresh st path in
  mkPathInfo (refClients e ∪ {[client]}) (u32_incr (playCount e))
    (recordClient e) (recordSessionId e).

(** The entry of [path] once [onRecord] has run for [client]. *)
Definition recorded_entry (st : Private) (client : ClientId) (path : PathId)
    (sessionId : SessionId) : PathInfo :=
  let e := entry_or_fresh st path in
  if decide (recorder_marked e)
  then mkPathInfo (refClients e ∪ {[client]}) (playCount e)
         (recordClient e) (recordSessionId e)
  else mkPathInfo (refClients e ∪ {[client]}) (playCount e)
         (Some client) sessionId.

(** The entry of the path once [onTeardown] has run, when it has one. *)
Definition teardown_entry (client : ClientId) (sessionId : SessionId)
    (pi : PathInfo) : PathInfo :=
  if bool_decide (Some client = recordClient pi)
     && String.eqb sessionId (recordSessionId pi)
  then set_recorder None "" pi
  else if 0 <? playCount pi
  then set_playCount (u32_decr (playCount pi)) pi
  else pi.

(** ** Invariants *)

(** I1: the two views of the client/path relation agree. *)
Definition refs_consistent (st : Private) : Prop :=
  ∀ c p, p ∈ ref_paths_of st c ↔ c ∈ ref_clients_of st p.

(** An entry is referenced by some client, a session id comes with a
    recorder, and the recorder is one of the referencing clients. *)
Definition entry_ok (pi : PathInfo) : Prop :=
  refClients pi ≠ ∅
  ∧ (recordSessionId pi ≠ "" → is_Some (recordClient pi))
  ∧ (∀ c, recordClient pi = Some c → c ∈ refClients pi).

(** A recorder comes with a session id. *)
Definition entry_named (pi : PathInfo) : Prop :=
  is_Some (recordClient pi) → recordSessionId pi ≠ "".

Definition entries_ok (st : Private) : Prop :=
  ∀ p pi, paths st !! p = Some pi → entry_ok pi.

Definition entries_named (st : Private) : Prop :=
  ∀ p pi, paths st !! p = Some pi → entry_named pi.

(** I4: no play count exceeds the limit. *)
Definition play_bounded (st : Private) : Prop :=
  ∀ p pi, paths st !! p = Some pi → playCount pi ≤ maxClientsPerPath st.

(** The session id an [EvRecord] carries is not the empty string. *)
Definition named_session (e : Event) : bool :=
  match e with
  | EvRecord _ _ sessionId => negb (String.eqb sessionId "")
  | _ => true
  end.

(** ** Reading the recorder notifications of one path *)

(** [true] for a [recorderConnected] about [p], [false] for a
    [recorderDisconnected] about [p]. *)
Definition recorder_mark (p : PathId) (n : Notification) : option bool :=
  match n with
  | recorderConnected _ q => if decide (q = p) then Some true else None
  | recorderDisconnected q => if decide (q = p) then Some false else None
  | _ => None
  end.

Definition recorder_log (p : PathId) (out : list Notification) : list bool :=
  omap (recorder_mark p) out.

(** Reads a log that starts while a recorder is connected ([on = true]) or
    not: [None] when two marks of the same kind follow each other or the
    first one repeats [on], otherwise whether a recorder is connected at
    the end. *)
Fixpoint alternates (on : bool) (l : list bool) : option bool :=
  match l with
  | [] => Some on
  | b :: l' => if Bool.eqb b on then None else alternates b l'
  end.

(** The path has an entry whose [recordClient] is set. *)
Definition recording (st : Private) (p : PathId) : bool :=
  match paths st !! p with
  | Some pi => bool_decide (is_Some (recordClient pi))
  | None => false
  end.

Fixpoint count_mark (b : bool) (l : list bool) : nat :=
  match l with
  | [] => 0
  | x :: l' => ((if Bool.eqb x b then 1 else 0) + count_mark b l')%nat
  end.

(** ** Reading the other notifications *)

(** The path a notification is about. *)
Definition note_path (n : Notification) : PathId :=
  match n with
  | firstPlayerConnected _ p => p
  | lastPlayerDisconnected p => p
  | recorderConnected _ p => p
  | recorderDisconnected p => p
  end.

(** The notification is one of the two disconnect notifications. *)
Definition is_disconnect (n : Notification) : bool :=
  match n with
  | lastPlayerDisconnected _ | recorderDisconnected _ => true
  | _ => false
  end.

(** [true] for a [firstPlayerConnected] about [p], [false] for a
    [lastPlayerDisconnected] about [p]. *)
Definition player_mark (p : PathId) (n : Notification) : option bool :=
  match n with
  | firstPlayerConnected _ q => if decide (q = p) then Some true else None
  | lastPlayerDisconnected q => if decide (q = p) then Some false else None
  | _ => None
  end.

Definition player_log (p : PathId) (out : list Notification) : list bool :=
  omap (player_mark p) out.

(** The path has an entry whose [playCount] is not 0. *)
Definition playing (st : Private) (p : PathId) : bool :=
  match paths st !! p with
  | Some pi => 0 <? playCount pi
  | None => false
  end.

Definition is_closed (e : Event) : bool :=
  match e with
  | EvClosed _ => true
  | _ => false
  end.

(** The play count the check of [beforePlay] lets a path reach. *)
Definition play_reach (maxClients : N) : N := N.max 1 (maxClients - 1).

(** No play count exceeds [k]. *)
Definition plays_below (k : N) (st : Private) : Prop :=
  ∀ p pi, paths st !! p = Some pi → playCount pi ≤ k.

(** Every client entry references some path. *)
Definition clients_referencing (st : Private) : Prop :=
  ∀ c ci, clients st !! c = Some ci → refPaths ci ≠ ∅.

(** What the turn of the loop of [onClientClosed] for [p] emits, and
    which assertions it fails, when the loop starts from the map [ps]. *)
Definition close_notes (client : ClientId) (ps : gmap PathId PathInfo)
    (p : PathId) : list Notification :=
  match ps !! p with
  | Some pi => (closeEntry client p pi).1.2
  | None => []
  end.

Definition close_failures (client : ClientId) (ps : gmap PathId PathInfo)
    (p : PathId) : list Assertion :=
  match ps !! p with
  | Some pi => (closeEntry client p pi).2
  | None => []
  end.

(** ** Calling the host *)




(** * Properties *)

(** ** Machine integers *)

Lemma u32_incr_mod n : n < 2 ^ 32 → u32_incr n = (n + 1) mod 2 ^ 32.
Proof.
  intros Hn. unfold u32_incr, UINT_MAX.
  destruct (N.eqb_spec n 4294967295) as [->|Hne]; [reflexivity|].
  rewrite N.mod_small; [reflexivity|].
  change (2 ^ 32) with 4294967296 in *. lia.
Qed.

Lemma u32_decr_mod n : n < 2 ^ 32 → u32_decr n = (n + UINT_MAX) mod 2 ^ 32.
Proof.
  intros Hn. unfold u32_decr, UINT_MAX.
  change (2 ^ 32) with 4294967296 in *.
  destruct (N.eqb_spec n 0) as [->|Hne]; [reflexivity|].
  replace (n + 4294967295) with ((n - 1) + 1 * 4294967296) by lia.
  rewrite N.Div0.mod_add, N.mod_small; lia.
Qed.

Lemma u32_decr_pos n : 0 < n → u32_decr n = n - 1.
Proof.
  intros Hn. unfold u32_decr.
  destruct (N.eqb_spec n 0); [lia | reflexivity].
Qed.

Lemma u32_incr_le n : u32_incr n ≤ n + 1.
Proof. unfold u32_incr. destruct (n =? UINT_MAX); lia. Qed.

(** ** Bookkeeping lemmas shared by the handlers *)

Lemma string_eqb_empty s : negb (String.eqb s "") = bool_decide (s ≠ "").
Proof.
  destruct (String.eqb_spec s ""); simpl.
  - by rewrite bool_decide_eq_false_2; [|intros H; apply H].
  - by rewrite bool_decide_eq_true_2.
Qed.

Lemma recorder_test pi :
  bool_decide (is_Some (recordClient pi)) || negb (String.eqb (recordSessionId pi) "")
  = bool_decide (recorder_marked pi).
Proof.
  rewrite string_eqb_empty. unfold recorder_marked.
  repeat case_bool_decide; simpl; tauto.
Qed.

Lemma registerPath_entry client path st :
  (registerPath client path st).2
  = set_refClients (refClients (entry_or_fresh st path) ∪ {[client]})
      (entry_or_fresh st path).
Proof.
  unfold registerPath, entry_or_fresh. simpl.
  destruct (paths st !! path); [reflexivity|].
  unfold set_refClients. simpl. f_equal. set_solver.
Qed.

Lemma registerPath_paths client path st :
  paths (registerPath client path st).1
  = <[path := (registerPath client path st).2]> (paths st).
Proof. reflexivity. Qed.

Lemma registerPath_clients client path st :
  clients (registerPath client path st).1
  = <[client := mkClientInfo (ref_paths_of st client ∪ {[path]})]> (clients st).
Proof.
  unfold registerPath, ref_paths_of. simpl.
  destruct (clients st !! client); [reflexivity|].
  do 2 f_equal. set_solver.
Qed.

Lemma registerPath_limits client path st :
  maxPathsCount (registerPath client path st).1 = maxPathsCount st
  ∧ maxClientsPerPath (registerPath client path st).1 = maxClientsPerPath st.
Proof. split; reflexivity. Qed.

Lemma paths_initial maxPaths maxClients : paths (initial maxPaths maxClients) = ∅.
Proof. reflexivity. Qed.

Lemma clients_initial maxPaths maxClients : clients (initial maxPaths maxClients) = ∅.
Proof. reflexivity. Qed.

Lemma entry_or_fresh_initial maxPaths maxClients p :
  entry_or_fresh (initial maxPaths maxClients) p = mkPathInfo ∅ 0 None "".
Proof. unfold entry_or_fresh. by rewrite paths_initial, lookup_empty. Qed.

Lemma onPlay_unfold st client ctx sessionId :
  onPlay st client ctx sessionId
  = (mkPrivate (maxPathsCount st) (maxClientsPerPath st)
       (<[client := mkClientInfo (ref_paths_of st client ∪ {[abspath (uri ctx)]})]>
          (clients st))
       (<[abspath (uri ctx) := played_entry st client (abspath (uri ctx))]> (paths st)),
     if playCount (played_entry st client (abspath (uri ctx))) =? 1
     then [firstPlayerConnected (user ctx) (abspath (uri ctx))] else []).
Proof.
  unfold onPlay.
  pose proof (registerPath_entry client (abspath (uri ctx)) st) as He.
  pose proof (registerPath_paths client (abspath (uri ctx)) st) as Hp.
  pose proof (registerPath_clients client (abspath (uri ctx)) st) as Hc.
  pose proof (registerPath_limits client (abspath (uri ctx)) st) as [Hl1 Hl2].
  destruct (registerPath client (abspath (uri ctx)) st) as [st1 pi1].
  simpl in He, Hp, Hc, Hl1, Hl2. subst pi1.
  unfold store_path, set_paths, played_entry, set_playCount, set_refClients.
  cbn [playCount refClients recordClient recordSessionId].
  rewrite Hp, Hc, Hl1, Hl2, insert_insert_eq. reflexivity.
Qed.

Lemma onRecord_unfold st client ctx sessionId :
  onRecord st client ctx sessionId
  = (mkPrivate (maxPathsCount st) (maxClientsPerPath st)
       (<[client := mkClientInfo (ref_paths_of st client ∪ {[abspath (uri ctx)]})]>
          (clients st))
       (<[abspath (uri ctx) := recorded_entry st client (abspath (uri ctx)) sessionId]>
          (paths st)),
     if decide (recorder_marked (entry_or_fresh st (abspath (uri ctx))))
     then [] else [recorderConnected (user ctx) (abspath (uri ctx))]).
Proof.
  unfold onRecord.
  pose proof (registerPath_entry client (abspath (uri ctx)) st) as He.
  pose proof (registerPath_paths client (abspath (uri ctx)) st) as Hp.
  pose proof (registerPath_clients client (abspath (uri ctx)) st) as Hc.
  pose proof (registerPath_limits client (abspath (uri ctx)) st) as [Hl1 Hl2].
  destruct (registerPath client (abspath (uri ctx)) st) as [st1 pi1].
  simpl in He, Hp, Hc, Hl1, Hl2. subst pi1.
  rewrite recorder_test. unfold recorded_entry.
  assert (Hm : recorder_marked
                 (set_refClients
                    (refClients (entry_or_fresh st (abspath (uri ctx))) ∪ {[client]})
                    (entry_or_fresh st (abspath (uri ctx))))
               ↔ recorder_marked (entry_or_fresh st (abspath (uri ctx)))) by done.
  destruct (decide (recorder_marked (entry_or_fresh st (abspath (uri ctx))))) as [Hy|Hn].
  - rewrite bool_decide_eq_true_2 by (by apply Hm).
    destruct st1 as [mp mc cs ps]. simpl in *. subst. reflexivity.
  - rewrite bool_decide_eq_false_2 by (by rewrite Hm).
    unfold store_path, set_paths, set_recorder, set_refClients.
    cbn [playCount refClients recordClient recordSessionId].
    rewrite Hp, Hc, Hl1, Hl2, insert_insert_eq. reflexivity.
Qed.

(** ** Admission of players *)

Lemma beforePlay_forbidden_iff st client url sessionId :
  beforePlay st client url sessionId = GST_RTSP_STS_FORBIDDEN
  ↔ 0 < maxClientsPerPath st
    ∧ ∃ pi, paths st !! abspath url = Some pi
            ∧ maxClientsPerPath st - 1 ≤ playCount pi.
Proof.
  unfold beforePlay.
  destruct (paths st !! abspath url) as [pi|] eqn:Hp.
  - destruct (N.ltb_spec 0 (maxClientsPerPath st)) as [Hpos|Hzero]; simpl.
    + rewrite u32_decr_pos by done.
      destruct (N.leb_spec (maxClientsPerPath st - 1) (playCount pi)).
      * split; [intros _; eauto|done].
      * split; [done|]. intros (_ & pi' & [= <-] & ?). lia.
    + split; [done|]. intros [? _]. lia.
  - split; [done|]. intros (_ & pi & ? & _). done.
Qed.

Lemma beforePlay_ok_or_forbidden st client url sessionId :
  beforePlay st client url sessionId = GST_RTSP_STS_OK
  ∨ beforePlay st client url sessionId = GST_RTSP_STS_FORBIDDEN.
Proof.
  unfold beforePlay. destruct (paths st !! abspath url); [|by left].
  destruct (_ && _); [by right|by left].
Qed.

(** C1, as stated, fails: with [maxClientsPerPath = 2] the second
    [pre_play] on the path is refused, so the three answers are never
    OK, OK, 403. *)
Lemma pre_play_cap_two_refuted :
  let a := mkUrl "/a" in
  let ctx := mkContext a None in
  let st0 := initial 0 2 in
  let st1 := (onPlay st0 1%positive ctx "s1").1 in
  let st2 := (onPlay st1 2%positive ctx "s2").1 in
  ¬ (beforePlay st0 1%positive a "s1" = GST_RTSP_STS_OK
     ∧ beforePlay st1 2%positive a "s2" = GST_RTSP_STS_OK
     ∧ beforePlay st2 3%positive a "s3" = GST_RTSP_STS_FORBIDDEN).
Proof. vm_compute. intros (_ & H & _). discriminate H. Qed.

(** C1 (amended): [pre_play] answers 403 exactly when the limit is set
    ([maxClientsPerPath > 0]), the path has an entry and its play count
    is at least [maxClientsPerPath - 1], and OK otherwise; so from the
    empty store with a limit of 2 the first [pre_play] on a fresh path is
    answered OK and, once its [on_play] has run, the second one already
    403. *)
Theorem pre_play_cap :
  (∀ st client url sessionId,
      (beforePlay st client url sessionId = GST_RTSP_STS_FORBIDDEN
       ↔ 0 < maxClientsPerPath st
         ∧ ∃ pi, paths st !! abspath url = Some pi
                 ∧ maxClientsPerPath st - 1 ≤ playCount pi)
      ∧ (beforePlay st client url sessionId ≠ GST_RTSP_STS_FORBIDDEN
         ↔ beforePlay st client url sessionId = GST_RTSP_STS_OK))
  ∧ (∀ maxPaths c1 c2 ctx s1 s2,
      let st0 := initial maxPaths 2 in
      let st1 := (onPlay st0 c1 ctx s1).1 in
      beforePlay st0 c1 (uri ctx) s1 = GST_RTSP_STS_OK
      ∧ (playCount <$> paths st1 !! abspath (uri ctx)) = Some 1
      ∧ beforePlay st1 c2 (uri ctx) s2 = GST_RTSP_STS_FORBIDDEN).
Proof.
  split.
  - intros st client url sessionId. split.
    + apply beforePlay_forbidden_iff.
    + destruct (beforePlay_ok_or_forbidden st client url sessionId) as [H|H];
        rewrite H; split; congruence.
  - intros maxPaths c1 c2 ctx s1 s2 st0 st1.
    assert (Hst1 : paths st1 !! abspath (uri ctx)
                   = Some (mkPathInfo (∅ ∪ {[c1]}) 1 None "")).
    { subst st1 st0. rewrite onPlay_unfold. cbn [fst paths].
      rewrite lookup_insert_eq. unfold played_entry.
      by rewrite entry_or_fresh_initial. }
    split; [|split].
    + unfold beforePlay. subst st0. by rewrite paths_initial, lookup_empty.
    + by rewrite Hst1.
    + apply beforePlay_forbidden_iff.
      assert (Hmax : maxClientsPerPath st1 = 2).
      { subst st1 st0. by rewrite onPlay_unfold. }
      rewrite Hmax. split; [lia|].
      eexists. split; [exact Hst1|]. simpl. lia.
Qed.

(** ** [on_teardown] *)

(** C2: [on_teardown] on a path without an entry changes nothing and
    emits nothing; on the recorder's own session it clears both recorder
    fields, emits [recorder_disconnected] and keeps the play count;
    otherwise a positive play count drops by one, whoever tears down, and
    [last_player_disconnected] is emitted exactly when it reaches 0 (a
    zero play count leaves the store as it is); the sets [ref_paths] and
    [ref_clients] are never touched. *)
Theorem onTeardown_spec (st : Private) client url sessionId :
  let path := abspath url in
  let st' := (onTeardown st client url sessionId).1 in
  let out := (onTeardown st client url sessionId).2 in
  match paths st !! path with
  | None => st' = st ∧ out = []
  | Some pi =>
      if decide (recordClient pi = Some client ∧ recordSessionId pi = sessionId)
      then paths st' !! path
           = Some (mkPathInfo (refClients pi) (playCount pi) None "")
           ∧ out = [recorderDisconnected path]
      else if decide (0 < playCount pi)
      then paths st' !! path
           = Some (mkPathInfo (refClients pi) (playCount pi - 1)
                     (recordClient pi) (recordSessionId pi))
           ∧ out = (if decide (playCount pi - 1 = 0)
                    then [lastPlayerDisconnected path] else [])
      else st' = st ∧ out = []
  end
  ∧ clients st' = clients st
  ∧ maxClientsPerPath st' = maxClientsPerPath st
  ∧ (∀ p, p ≠ path → paths st' !! p = paths st !! p)
  ∧ (∀ c, ref_paths_of st' c = ref_paths_of st c)
  ∧ (∀ p, ref_clients_of st' p = ref_clients_of st p).
Proof.
  intros path st' out. subst st' out. unfold onTeardown. fold path.
  destruct (paths st !! path) as [pi|] eqn:Hp.
  2:{ simpl. repeat split; done. }
  assert (Hframe : ∀ pi', refClients pi' = refClients pi →
            clients (store_path path pi' st) = clients st
            ∧ maxClientsPerPath (store_path path pi' st) = maxClientsPerPath st
            ∧ (∀ p, p ≠ path → paths (store_path path pi' st) !! p = paths st !! p)
            ∧ (∀ c, ref_paths_of (store_path path pi' st) c = ref_paths_of st c)
            ∧ (∀ p, ref_clients_of (store_path path pi' st) p = ref_clients_of st p)).
  { intros pi' Hr. unfold store_path, set_paths, ref_clients_of, ref_paths_of.
    cbn [clients paths maxClientsPerPath].
    repeat split; try done.
    - intros p Hne. by rewrite lookup_insert_ne.
    - intros p. destruct (decide (p = path)) as [->|Hne].
      + by rewrite lookup_insert_eq, Hp.
      + by rewrite lookup_insert_ne. }
  destruct (decide (recordClient pi = Some client ∧ recordSessionId pi = sessionId))
    as [[Hc Hs]|Hno].
  - rewrite bool_decide_eq_true_2 by done.
    rewrite (proj2 (String.eqb_eq _ _)) by done. simpl.
    split.
    + unfold store_path, set_paths. cbn [paths]. by rewrite lookup_insert_eq.
    + by apply Hframe.
  - assert (bool_decide (Some client = recordClient pi)
            && String.eqb sessionId (recordSessionId pi) = false) as ->.
    { apply andb_false_iff.
      destruct (decide (Some client = recordClient pi)) as [Hc|Hc].
      - right. apply String.eqb_neq. intros ->. by apply Hno.
      - left. by apply bool_decide_eq_false_2. }
    destruct (N.ltb_spec 0 (playCount pi)) as [Hpos|Hzero].
    + cbn [fst snd]. rewrite decide_True by done.
      unfold set_playCount. cbn [playCount]. rewrite u32_decr_pos by done.
      split; [split|].
      * unfold store_path, set_paths. cbn [paths]. by rewrite lookup_insert_eq.
      * destruct (N.eqb_spec (playCount pi - 1) 0).
        -- by rewrite decide_True.
        -- by rewrite decide_False.
      * by apply Hframe.
    + cbn [fst snd]. rewrite decide_False by lia. repeat split; done.
Qed.

(** ** [on_play] *)

(** C4, as stated, fails where the counter is at its largest value: the
    increment wraps to 0 instead of adding one. *)
Lemma onPlay_increment_refuted :
  let ctx := mkContext (mkUrl "/a") None in
  let st := mkPrivate 0 0 {[ 1%positive := mkClientInfo {[ "/a" ]} ]}
              {[ "/a" := mkPathInfo {[ 1%positive ]} 4294967295 None "" ]} in
  let st' := (onPlay st 1%positive ctx "s1").1 in
  (playCount <$> paths st !! "/a") = Some 4294967295
  ∧ (playCount <$> paths st' !! "/a") = Some 0
  ∧ ¬ ((playCount <$> paths st' !! "/a")
       = ((λ pi, playCount pi + 1) <$> paths st !! "/a")).
Proof. vm_compute. repeat split; try reflexivity. intros H. discriminate H. Qed.

(** C4 (amended): [on_play] records the reference on both sides, creating
    the client and path entries that are missing; the play count of the
    path goes up by one as an [unsigned] does, that is by exactly one
    below [UINT_MAX] and back to 0 from [UINT_MAX];
    [first_player_connected (user ctx) path] is emitted, once, exactly
    when the new count is 1; the recorder fields, every other path entry
    and every other client entry stay as they were. *)
Theorem onPlay_spec (st : Private) client ctx sessionId :
  let path := abspath (uri ctx) in
  let st' := (onPlay st client ctx sessionId).1 in
  let out := (onPlay st client ctx sessionId).2 in
  let old := entry_or_fresh st path in
  (is_Some (clients st' !! client)
   ∧ ref_paths_of st' client = ref_paths_of st client ∪ {[path]}
   ∧ ref_clients_of st' path = ref_clients_of st path ∪ {[client]})
  ∧ (∃ pi', paths st' !! path = Some pi'
            ∧ playCount pi' = u32_incr (playCount old)
            ∧ (playCount old < UINT_MAX → playCount pi' = playCount old + 1)
            ∧ (playCount old = UINT_MAX → playCount pi' = 0)
            ∧ recordClient pi' = recordClient old
            ∧ recordSessionId pi' = recordSessionId old
            ∧ out = (if decide (playCount pi' = 1)
                     then [firstPlayerConnected (user ctx) path] else []))
  ∧ (∀ c, c ≠ client → clients st' !! c = clients st !! c)
  ∧ (∀ p, p ≠ path → paths st' !! p = paths st !! p)
  ∧ maxPathsCount st' = maxPathsCount st
  ∧ maxClientsPerPath st' = maxClientsPerPath st.
Proof.
  intros path st' out old. subst st' out. rewrite onPlay_unfold. fold path.
  cbn [fst snd clients paths maxPathsCount maxClientsPerPath].
  split; [|split; [|split; [|split]]].
  - unfold ref_paths_of, ref_clients_of. cbn [clients paths].
    rewrite !lookup_insert_eq. split; [eauto|]. split; [done|].
    unfold played_entry, entry_or_fresh. cbn [refClients].
    by destruct (paths st !! path).
  - exists (played_entry st client path). rewrite lookup_insert_eq.
    unfold played_entry. fold old. cbn [playCount recordClient recordSessionId].
    repeat split; try done.
    + intros Hlt. unfold u32_incr.
      destruct (N.eqb_spec (playCount old) UINT_MAX); [lia|done].
    + intros ->. reflexivity.
    + destruct (N.eqb_spec (u32_incr (playCount old)) 1).
      * by rewrite decide_True.
      * by rewrite decide_False.
  - intros c Hne. by rewrite lookup_insert_ne.
  - intros p Hne. by rewrite lookup_insert_ne.
  - done.
Qed.

Lemma onPlay_spec_witness :
  let ctx := mkContext (mkUrl "/a") None in
  let st := initial 0 0 in
  ∃ pi', paths (onPlay st 1%positive ctx "s1").1 !! "/a" = Some pi'
         ∧ playCount pi' = 0 + 1.
Proof.
  intros ctx st.
  destruct (onPlay_spec st 1%positive ctx "s1")
    as (_ & (pi' & Hl & _ & Hstep & _) & _).
  exists pi'. split; [exact Hl|].
  apply Hstep. vm_compute. reflexivity.
Defined.

(** ** [on_record] *)

(** On a store whose entry has no recorder client but a session id (a
    store the handlers never build, see [reachable_recorder_test]), the
    guard of [onRecord] still holds back: nothing is written and nothing
    is emitted. *)
Lemma onRecord_unpaired_store :
  let ctx := mkContext (mkUrl "/a") None in
  let st := mkPrivate 0 0 {[ 1%positive := mkClientInfo {[ "/a" ]} ]}
              {[ "/a" := mkPathInfo {[ 1%positive ]} 0 None "s0" ]} in
  let st' := (onRecord st 2%positive ctx "s2").1 in
  let out := (onRecord st 2%positive ctx "s2").2 in
  (recordClient <$> paths st !! "/a") = Some None
  ∧ (recordClient <$> paths st' !! "/a") = Some None
  ∧ out = []
  ∧ ¬ ((recordClient <$> paths st' !! "/a") = Some (Some 2%positive)
       ∧ out = [recorderConnected "" "/a"]).
Proof.
  vm_compute. repeat split; try reflexivity. intros [H _]. discriminate H.
Qed.

(** [on_record] on any store whatever: it records the reference on both
    sides; then, if the entry's [record_client] is set or its
    [record_session_id] is not empty, both recorder fields stay as they
    are and nothing is emitted; otherwise [record_client] becomes the
    client, [record_session_id] the session id, and
    [recorder_connected (user ctx) path] is emitted once.  The play count,
    every other path entry and every other client entry stay as they
    were. *)
Lemma onRecord_every_store (st : Private) client ctx sessionId :
  let path := abspath (uri ctx) in
  let st' := (onRecord st client ctx sessionId).1 in
  let out := (onRecord st client ctx sessionId).2 in
  let old := entry_or_fresh st path in
  (is_Some (clients st' !! client)
   ∧ ref_paths_of st' client = ref_paths_of st client ∪ {[path]}
   ∧ ref_clients_of st' path = ref_clients_of st path ∪ {[client]})
  ∧ (∃ pi', paths st' !! path = Some pi'
            ∧ playCount pi' = playCount old
            ∧ if decide (is_Some (recordClient old) ∨ recordSessionId old ≠ "")
              then recordClient pi' = recordClient old
                   ∧ recordSessionId pi' = recordSessionId old
                   ∧ out = []
              else recordClient pi' = Some client
                   ∧ recordSessionId pi' = sessionId
                   ∧ out = [recorderConnected (user ctx) path])
  ∧ (∀ c, c ≠ client → clients st' !! c = clients st !! c)
  ∧ (∀ p, p ≠ path → paths st' !! p = paths st !! p)
  ∧ maxPathsCount st' = maxPathsCount st
  ∧ maxClientsPerPath st' = maxClientsPerPath st.
Proof.
  intros path st' out old. subst st' out. rewrite onRecord_unfold. fold path old.
  cbn [fst snd clients paths maxPathsCount maxClientsPerPath].
  split; [|split; [|split; [|split]]].
  - unfold ref_paths_of, ref_clients_of. cbn [clients paths].
    rewrite !lookup_insert_eq. split; [eauto|]. split; [done|].
    unfold recorded_entry. fold old.
    assert (refClients old = match paths st !! path with
                             | Some pi => refClients pi | None => ∅ end) as <-.
    { subst old. unfold entry_or_fresh. by destruct (paths st !! path). }
    by destruct (decide (recorder_marked old)).
  - exists (recorded_entry st client path sessionId). rewrite lookup_insert_eq.
    unfold recorded_entry. fold old. unfold recorder_marked.
    destruct (decide (is_Some (recordClient old) ∨ recordSessionId old ≠ ""));
      repeat split; done.
  - intros c Hne. by rewrite lookup_insert_ne.
  - intros p Hne. by rewrite lookup_insert_ne.
  - done.
Qed.

(** ** [pre_record] *)

Lemma isRecording_iff st client path :
  isRecording st client path = true
  ↔ ∃ pi, paths st !! path = Some pi ∧ recorder_marked pi.
Proof.
  unfold isRecording. destruct (paths st !! path) as [pi|].
  - rewrite recorder_test, bool_decide_eq_true. split; [eauto|].
    by intros (pi' & [= <-] & ?).
  - split; [done|]. by intros (pi & ? & _).
Qed.

(** On a store whose entry has no recorder client but a session id (a
    store the handlers never build, see [reachable_recorder_test]),
    [pre_record] answers 503 although no entry has [record_client] set. *)
Lemma pre_record_unpaired_store :
  let st := mkPrivate 0 0 {[ 1%positive := mkClientInfo {[ "/a" ]} ]}
              {[ "/a" := mkPathInfo {[ 1%positive ]} 0 None "s0" ]} in
  beforeRecord st 2%positive (mkUrl "/a") "s2" = GST_RTSP_STS_SERVICE_UNAVAILABLE
  ∧ ¬ (∃ pi, paths st !! "/a" = Some pi ∧ is_Some (recordClient pi)).
Proof.
  split; [vm_compute; reflexivity|].
  intros (pi & Hl & Hr). vm_compute in Hl.
  injection Hl as <-. destruct Hr as [c Hc]. discriminate Hc.
Qed.

(** [pre_record] on any store whatever: it answers 503 exactly when the
    path has an entry whose [record_client] is set or whose
    [record_session_id] is not empty, which is when [is_recording] is
    true, and OK otherwise. *)
Lemma pre_record_every_store (st : Private) client url sessionId :
  (beforeRecord st client url sessionId = GST_RTSP_STS_SERVICE_UNAVAILABLE
   ↔ ∃ pi, paths st !! abspath url = Some pi
           ∧ (is_Some (recordClient pi) ∨ recordSessionId pi ≠ ""))
  ∧ (beforeRecord st client url sessionId = GST_RTSP_STS_SERVICE_UNAVAILABLE
     ↔ isRecording st client (abspath url) = true)
  ∧ (beforeRecord st client url sessionId ≠ GST_RTSP_STS_SERVICE_UNAVAILABLE
     ↔ beforeRecord st client url sessionId = GST_RTSP_STS_OK)
  ∧ step st (EvPreRecord client url sessionId) = (st, [], []).
Proof.
  assert (Hrec : beforeRecord st client url sessionId = GST_RTSP_STS_SERVICE_UNAVAILABLE
                 ↔ isRecording st client (abspath url) = true).
  { unfold beforeRecord. destruct (isRecording st client (abspath url)); split; done. }
  split; [|split; [|split]].
  - rewrite Hrec. apply isRecording_iff.
  - exact Hrec.
  - unfold beforeRecord. destruct (isRecording st client (abspath url)); split; done.
  - reflexivity.
Qed.

(** ** [on_client_closed] on a client without an entry *)

(** C10: closing a client that has no entry in [clients] leaves the whole
    store as it is and emits nothing (and no assertion is evaluated). *)
Theorem onClientClosed_unknown (st : Private) client :
  clients st !! client = None →
  onClientClosed st client = (st, [], []).
Proof. intros Hc. unfold onClientClosed. by rewrite Hc. Qed.

Lemma onClientClosed_unknown_witness :
  let ctx := mkContext (mkUrl "/a") None in
  let st := (onRecord (onPlay (initial 0 0) 1%positive ctx "s1").1 1%positive ctx "s2").1 in
  clients st !! 2%positive = None
  ∧ clients st !! 1%positive ≠ None
  ∧ onClientClosed st 2%positive = (st, [], []).
Proof.
  intros ctx st. split; [vm_compute; reflexivity|]. split.
  - vm_compute. discriminate.
  - apply (onClientClosed_unknown st 2%positive). vm_compute. reflexivity.
Defined.

(** ** The loop of [on_client_closed] *)

Lemma set_order_elem (s : gset string) p : p ∈ set_order s ↔ p ∈ s.
Proof.
  unfold set_order. rewrite merge_sort_Permutation. apply elem_of_elements.
Qed.

Lemma string_le_total : Total string_le.
Proof. intros a b. apply String.leb_total. Qed.

Lemma set_order_sorted (s : gset string) : Sorted string_le (set_order s).
Proof. apply Sorted_merge_sort, string_le_total. Qed.

Lemma set_order_NoDup (s : gset string) : NoDup (set_order s).
Proof.
  unfold set_order. rewrite merge_sort_Permutation. apply NoDup_elements.
Qed.

(** What [closeEntry] leaves of an entry. *)
Lemma closeEntry_entry client path pi :
  match (closeEntry client path pi).1.1 with
  | None => refClients pi ∖ {[client]} = ∅
  | Some pi' =>
      refClients pi' = refClients pi ∖ {[client]}
      ∧ refClients pi' ≠ ∅
      ∧ playCount pi' ≤ playCount pi
      ∧ ((recordClient pi' = None ∧ recordSessionId pi' = "")
         ∨ (recordClient pi' = recordClient pi
            ∧ recordSessionId pi' = recordSessionId pi
            ∧ recordClient pi ≠ Some client))
  end.
Proof.
  destruct pi as [rs pc rc sid]. unfold closeEntry.
  cbn [set_refClients set_recorder set_playCount
       refClients playCount recordClient recordSessionId].
  destruct (decide (rs ∖ {[client]} = ∅)) as [He|Hne].
  - destruct rc; [done|]. by destruct (pc =? 1).
  - destruct (decide (Some client = rc)) as [Hc|Hc].
    + rewrite bool_decide_eq_true_2 by done.
      cbn [set_refClients set_recorder set_playCount
           refClients playCount recordClient recordSessionId].
      destruct (size _ =? 1)%nat; cbn; repeat split; try done; try lia; by left.
    + rewrite bool_decide_eq_false_2 by done.
      assert (Hkeep : rc ≠ Some client) by congruence.
      cbn [set_refClients set_recorder set_playCount
           refClients playCount recordClient recordSessionId].
      destruct (size _ =? 1)%nat, rc as [c|]; cbn;
        try (repeat split; try done; try lia; by right).
      destruct (N.eqb_spec pc 1) as [->|H1]; cbn;
        repeat split; try done; try lia; by right.
Qed.

Lemma closeRef_lookup client ps out bad a p :
  (closeRef client (ps, out, bad) a).1.1 !! p
  = if decide (p = a)
    then ps !! a ≫= λ pi, (closeEntry client a pi).1.1
    else ps !! p.
Proof.
  unfold closeRef. destruct (ps !! a) as [pi|] eqn:Ha.
  - destruct (closeEntry client a pi) as [[entry out'] bad'] eqn:He. cbn.
    destruct (decide (p = a)) as [->|Hne].
    + rewrite He. cbn.
      destruct entry; [by rewrite lookup_insert_eq | by rewrite lookup_delete_eq].
    + destruct entry; [by rewrite lookup_insert_ne | by rewrite lookup_delete_ne].
  - cbn. destruct (decide (p = a)) as [->|Hne]; [by rewrite Ha | done].
Qed.

Lemma foldl_closeRef_lookup client l : ∀ acc p,
  NoDup l →
  (foldl (closeRef client) acc l).1.1 !! p
  = if decide (p ∈ l)
    then acc.1.1 !! p ≫= λ pi, (closeEntry client p pi).1.1
    else acc.1.1 !! p.
Proof.
  induction l as [|a l IH]; intros [[ps out] bad] p Hnd.
  - cbn. rewrite decide_False; [done | apply not_elem_of_nil].
  - apply NoDup_cons in Hnd as [Ha Hnd]. cbn [foldl].
    rewrite IH by done.
    destruct (closeRef client (ps, out, bad) a) as [[ps' out'] bad'] eqn:Hstep.
    assert (Hl : ∀ q, ps' !! q
                 = if decide (q = a)
                   then ps !! a ≫= λ pi, (closeEntry client a pi).1.1
                   else ps !! q).
    { intros q. rewrite <- (closeRef_lookup client ps out bad a q). by rewrite Hstep. }
    cbn [fst]. rewrite Hl.
    destruct (decide (p = a)) as [->|Hne].
    + rewrite decide_False by done. rewrite decide_True by left. done.
    + destruct (decide (p ∈ l)) as [Hin|Hnin].
      * rewrite decide_True by (by right). done.
      * rewrite decide_False; [done|]. intros [?|?]%elem_of_cons; done.
Qed.

(** The store after [on_client_closed] for a client that has an entry. *)
Lemma onClientClosed_known st client ci :
  clients st !! client = Some ci →
  let st' := (onClientClosed st client).1.1 in
  clients st' = delete client (clients st)
  ∧ maxPathsCount st' = maxPathsCount st
  ∧ maxClientsPerPath st' = maxClientsPerPath st
  ∧ ∀ p, paths st' !! p
         = if decide (p ∈ refPaths ci)
           then paths st !! p ≫= λ pi, (closeEntry client p pi).1.1
           else paths st !! p.
Proof.
  intros Hc st'. subst st'. unfold onClientClosed. rewrite Hc.
  pose proof (foldl_closeRef_lookup client (set_order (refPaths ci))
                (paths st, [], [])) as Hl.
  destruct (foldl (closeRef client) (paths st, [], []) (set_order (refPaths ci)))
    as [[ps out] bad].
  cbn [fst snd clients paths maxPathsCount maxClientsPerPath] in *.
  repeat split. intros p. rewrite Hl by apply set_order_NoDup.
  destruct (decide (p ∈ set_order (refPaths ci))) as [Hin|Hnin].
  - rewrite decide_True; [done | by apply set_order_elem].
  - rewrite decide_False; [done | by rewrite <- set_order_elem].
Qed.

(** Every entry left by [on_client_closed] comes from an entry of the
    store before, with the client removed from its references. *)
Lemma onClientClosed_entry st client p pi' :
  paths (onClientClosed st client).1.1 !! p = Some pi' →
  ∃ pi, paths st !! p = Some pi
        ∧ (pi' = pi
           ∨ (refClients pi' = refClients pi ∖ {[client]}
              ∧ refClients pi' ≠ ∅
              ∧ playCount pi' ≤ playCount pi
              ∧ ((recordClient pi' = None ∧ recordSessionId pi' = "")
                 ∨ (recordClient pi' = recordClient pi
                    ∧ recordSessionId pi' = recordSessionId pi
                    ∧ recordClient pi ≠ Some client)))).
Proof.
  destruct (clients st !! client) as [ci|] eqn:Hc.
  - destruct (onClientClosed_known st client ci Hc) as (_ & _ & _ & Hl).
    rewrite Hl. destruct (decide (p ∈ refPaths ci)); [|eauto].
    destruct (paths st !! p) as [pi|]; [|done]. cbn. intros Hpi'.
    exists pi. split; [done|]. right.
    pose proof (closeEntry_entry client p pi) as He. by rewrite Hpi' in He.
  - unfold onClientClosed. rewrite Hc. cbn. eauto.
Qed.

(** ** Preservation of the invariants *)

Lemma refClients_entry_or_fresh st p :
  refClients (entry_or_fresh st p) = ref_clients_of st p.
Proof. unfold entry_or_fresh, ref_clients_of. by destruct (paths st !! p). Qed.

Lemma refClients_recorded_entry st client p sessionId :
  refClients (recorded_entry st client p sessionId)
  = ref_clients_of st p ∪ {[client]}.
Proof.
  unfold recorded_entry. rewrite <- refClients_entry_or_fresh.
  by destruct (decide _).
Qed.

Lemma entry_or_fresh_cases st p :
  paths st !! p = Some (entry_or_fresh st p)
  ∨ (paths st !! p = None ∧ entry_or_fresh st p = mkPathInfo ∅ 0 None "").
Proof. unfold entry_or_fresh. destruct (paths st !! p); auto. Qed.

Lemma register_refs_consistent st st' client path :
  (∀ c, ref_paths_of st' c
        = if decide (c = client) then ref_paths_of st client ∪ {[path]}
          else ref_paths_of st c) →
  (∀ p, ref_clients_of st' p
        = if decide (p = path) then ref_clients_of st path ∪ {[client]}
          else ref_clients_of st p) →
  refs_consistent st → refs_consistent st'.
Proof.
  intros H1 H2 H c p. rewrite H1, H2.
  pose proof (H c p). pose proof (H client p). pose proof (H c path).
  repeat case_decide; subst; set_solver.
Qed.

Lemma registered_views st st' client path pi' :
  clients st'
  = <[client := mkClientInfo (ref_paths_of st client ∪ {[path]})]> (clients st) →
  paths st' = <[path := pi']> (paths st) →
  refClients pi' = ref_clients_of st path ∪ {[client]} →
  (∀ c, ref_paths_of st' c
        = if decide (c = client) then ref_paths_of st client ∪ {[path]}
          else ref_paths_of st c)
  ∧ (∀ p, ref_clients_of st' p
          = if decide (p = path) then ref_clients_of st path ∪ {[client]}
            else ref_clients_of st p).
Proof.
  intros Hc Hp Hr. split.
  - intros c. unfold ref_paths_of at 1. rewrite Hc.
    destruct (decide (c = client)) as [->|Hne].
    + by rewrite lookup_insert_eq.
    + by rewrite lookup_insert_ne.
  - intros p. unfold ref_clients_of at 1. rewrite Hp.
    destruct (decide (p = path)) as [->|Hne].
    + by rewrite lookup_insert_eq.
    + by rewrite lookup_insert_ne.
Qed.

Lemma onPlay_refs_consistent st client ctx sessionId :
  refs_consistent st → refs_consistent (onPlay st client ctx sessionId).1.
Proof.
  rewrite onPlay_unfold. cbn [fst]. set (st' := mkPrivate _ _ _ _).
  destruct (registered_views st st' client (abspath (uri ctx))
              (played_entry st client (abspath (uri ctx)))) as [H1 H2];
    [done | done | | by apply (register_refs_consistent _ _ _ _ H1 H2)].
  unfold played_entry. cbn [refClients]. by rewrite refClients_entry_or_fresh.
Qed.

Lemma onRecord_refs_consistent st client ctx sessionId :
  refs_consistent st → refs_consistent (onRecord st client ctx sessionId).1.
Proof.
  rewrite onRecord_unfold. cbn [fst]. set (st' := mkPrivate _ _ _ _).
  destruct (registered_views st st' client (abspath (uri ctx))
              (recorded_entry st client (abspath (uri ctx)) sessionId)) as [H1 H2];
    [done | done | | by apply (register_refs_consistent _ _ _ _ H1 H2)].
  apply refClients_recorded_entry.
Qed.

Lemma onTeardown_unfold st client url sessionId :
  (onTeardown st client url sessionId).1
  = match paths st !! abspath url with
    | None => st
    | Some pi => store_path (abspath url) (teardown_entry client sessionId pi) st
    end.
Proof.
  unfold onTeardown, teardown_entry.
  destruct (paths st !! abspath url) as [pi|] eqn:Hp; [|done].
  destruct (_ && _); [done|].
  destruct (0 <? playCount pi); [done|].
  cbn. unfold store_path, set_paths. rewrite insert_id by done. by destruct st.
Qed.

Lemma teardown_entry_entry client sessionId pi :
  refClients (teardown_entry client sessionId pi) = refClients pi
  ∧ playCount (teardown_entry client sessionId pi) ≤ playCount pi
  ∧ ((recordClient (teardown_entry client sessionId pi) = None
      ∧ recordSessionId (teardown_entry client sessionId pi) = "")
     ∨ (recordClient (teardown_entry client sessionId pi) = recordClient pi
        ∧ recordSessionId (teardown_entry client sessionId pi) = recordSessionId pi)).
Proof.
  unfold teardown_entry. destruct (_ && _).
  - cbn. repeat split; [lia | by left].
  - destruct (N.ltb_spec 0 (playCount pi)).
    + cbn. rewrite u32_decr_pos by done. repeat split; [lia | by right].
    + repeat split; [lia | by right].
Qed.

Lemma onTeardown_entry st client url sessionId p pi' :
  paths (onTeardown st client url sessionId).1 !! p = Some pi' →
  ∃ pi, paths st !! p = Some pi
        ∧ refClients pi' = refClients pi
        ∧ playCount pi' ≤ playCount pi
        ∧ ((recordClient pi' = None ∧ recordSessionId pi' = "")
           ∨ (recordClient pi' = recordClient pi
              ∧ recordSessionId pi' = recordSessionId pi)).
Proof.
  rewrite onTeardown_unfold.
  destruct (paths st !! abspath url) as [pi|] eqn:Hp.
  - unfold store_path, set_paths. cbn [paths].
    destruct (decide (p = abspath url)) as [->|Hne].
    + rewrite lookup_insert_eq. intros [= <-]. exists pi. split; [done|].
      apply teardown_entry_entry.
    + rewrite lookup_insert_ne by done. intros Hl. exists pi'.
      repeat split; [done | lia | by right].
  - intros Hl. exists pi'. repeat split; [done | lia | by right].
Qed.

Lemma onTeardown_views st client url sessionId :
  clients (onTeardown st client url sessionId).1 = clients st
  ∧ maxClientsPerPath (onTeardown st client url sessionId).1 = maxClientsPerPath st
  ∧ ∀ p, ref_clients_of (onTeardown st client url sessionId).1 p
         = ref_clients_of st p.
Proof.
  rewrite onTeardown_unfold.
  destruct (paths st !! abspath url) as [pi|] eqn:Hp; [|done].
  repeat split. intros p. unfold ref_clients_of, store_path, set_paths. cbn [paths].
  destruct (decide (p = abspath url)) as [->|Hne].
  - rewrite lookup_insert_eq, Hp. apply teardown_entry_entry.
  - by rewrite lookup_insert_ne.
Qed.

Lemma onTeardown_refs_consistent st client url sessionId :
  refs_consistent st → refs_consistent (onTeardown st client url sessionId).1.
Proof.
  intros H c p.
  destruct (onTeardown_views st client url sessionId) as (Hc & _ & Hp).
  rewrite Hp. unfold ref_paths_of. rewrite Hc. apply H.
Qed.

Lemma onClientClosed_refs_consistent st client :
  refs_consistent st → refs_consistent (onClientClosed st client).1.1.
Proof.
  intros H. destruct (clients st !! client) as [ci|] eqn:Hci.
  2:{ unfold onClientClosed. by rewrite Hci. }
  destruct (onClientClosed_known st client ci Hci) as (Hc & _ & _ & Hl).
  assert (Hrefs : ∀ p, ref_clients_of (onClientClosed st client).1.1 p
                       = ref_clients_of st p ∖ {[client]}).
  { intros p. unfold ref_clients_of at 1. rewrite Hl.
    destruct (decide (p ∈ refPaths ci)) as [Hin|Hnin].
    - unfold ref_clients_of. destruct (paths st !! p) as [pi|]; cbn; [|set_solver].
      pose proof (closeEntry_entry client p pi) as He.
      destruct ((closeEntry client p pi).1.1); [by destruct He | done].
    - assert (client ∉ ref_clients_of st p).
      { intros Hin. apply H in Hin. unfold ref_paths_of in Hin.
        by rewrite Hci in Hin. }
      fold (ref_clients_of st p). set_solver. }
  intros c p. rewrite Hrefs. unfold ref_paths_of at 1. rewrite Hc.
  destruct (decide (c = client)) as [->|Hne].
  - rewrite lookup_delete_eq. set_solver.
  - rewrite lookup_delete_ne by done. fold (ref_paths_of st c).
    rewrite (H c p). set_solver.
Qed.

Lemma entry_or_fresh_recorder st p :
  entries_ok st →
  (recordSessionId (entry_or_fresh st p) ≠ "" → is_Some (recordClient (entry_or_fresh st p)))
  ∧ (∀ c, recordClient (entry_or_fresh st p) = Some c
          → c ∈ refClients (entry_or_fresh st p)).
Proof.
  intros Hok. destruct (entry_or_fresh_cases st p) as [Hl|[_ ->]].
  - destruct (Hok _ _ Hl) as (_ & ? & ?). done.
  - cbn. split; done.
Qed.

Lemma onPlay_entries_ok st client ctx sessionId :
  entries_ok st → entries_ok (onPlay st client ctx sessionId).1.
Proof.
  intros Hok p pi'. rewrite onPlay_unfold. cbn [fst paths].
  destruct (decide (p = abspath (uri ctx))) as [->|Hne].
  - rewrite lookup_insert_eq. intros [= <-].
    destruct (entry_or_fresh_recorder st (abspath (uri ctx)) Hok) as [Hs Hr].
    unfold entry_ok, played_entry. cbn. split; [set_solver|]. split; [done|].
    intros c Hc. apply Hr in Hc. set_solver.
  - rewrite lookup_insert_ne by done. apply Hok.
Qed.

Lemma onRecord_entries_ok st client ctx sessionId :
  entries_ok st → entries_ok (onRecord st client ctx sessionId).1.
Proof.
  intros Hok p pi'. rewrite onRecord_unfold. cbn [fst paths].
  destruct (decide (p = abspath (uri ctx))) as [->|Hne].
  - rewrite lookup_insert_eq. intros [= <-].
    destruct (entry_or_fresh_recorder st (abspath (uri ctx)) Hok) as [Hs Hr].
    unfold entry_ok, recorded_entry. destruct (decide _); cbn.
    + split; [set_solver|]. split; [done|].
      intros c Hc. apply Hr in Hc. set_solver.
    + split; [set_solver|]. split; [eauto|].
      intros c [= <-]. set_solver.
  - rewrite lookup_insert_ne by done. apply Hok.
Qed.

Lemma onTeardown_entries_ok st client url sessionId :
  entries_ok st → entries_ok (onTeardown st client url sessionId).1.
Proof.
  intros Hok p pi' Hl.
  destruct (onTeardown_entry _ _ _ _ _ _ Hl) as (pi & Hpi & Hr & _ & Hrec).
  destruct (Hok _ _ Hpi) as (Hne & Hs & Hc). unfold entry_ok. rewrite Hr.
  destruct Hrec as [[-> ->]|[-> ->]]; repeat split; done.
Qed.

Lemma onClientClosed_entries_ok st client :
  entries_ok st → entries_ok (onClientClosed st client).1.1.
Proof.
  intros Hok p pi' Hl.
  destruct (onClientClosed_entry _ _ _ _ Hl) as (pi & Hpi & Hcase).
  destruct (Hok _ _ Hpi) as (Hne & Hs & Hc).
  destruct Hcase as [->|(Hr & Hne' & _ & Hrec)]; [done|].
  unfold entry_ok. split; [done|].
  destruct Hrec as [[-> ->]|(-> & -> & Hkeep)]; [split; done|].
  split; [done|]. intros c Hrc. rewrite Hr.
  apply elem_of_difference. split; [by apply Hc|].
  intros ->%elem_of_singleton. done.
Qed.

Lemma onPlay_entries_named st client ctx sessionId :
  entries_named st → entries_named (onPlay st client ctx sessionId).1.
Proof.
  intros Hok p pi'. rewrite onPlay_unfold. cbn [fst paths].
  destruct (decide (p = abspath (uri ctx))) as [->|Hne].
  - rewrite lookup_insert_eq. intros [= <-].
    unfold entry_named, played_entry. cbn.
    destruct (entry_or_fresh_cases st (abspath (uri ctx))) as [Hl|[_ ->]].
    + apply (Hok _ _ Hl).
    + cbn. by intros [? ?].
  - rewrite lookup_insert_ne by done. apply Hok.
Qed.

Lemma onRecord_entries_named st client ctx sessionId :
  sessionId ≠ "" →
  entries_named st → entries_named (onRecord st client ctx sessionId).1.
Proof.
  intros Hsid Hok p pi'. rewrite onRecord_unfold. cbn [fst paths].
  destruct (decide (p = abspath (uri ctx))) as [->|Hne].
  - rewrite lookup_insert_eq. intros [= <-].
    unfold entry_named, recorded_entry. destruct (decide _); cbn; [|done].
    destruct (entry_or_fresh_cases st (abspath (uri ctx))) as [Hl|[_ ->]].
    + apply (Hok _ _ Hl).
    + cbn. by intros [? ?].
  - rewrite lookup_insert_ne by done. apply Hok.
Qed.

Lemma onTeardown_entries_named st client url sessionId :
  entries_named st → entries_named (onTeardown st client url sessionId).1.
Proof.
  intros Hok p pi' Hl.
  destruct (onTeardown_entry _ _ _ _ _ _ Hl) as (pi & Hpi & _ & _ & Hrec).
  pose proof (Hok _ _ Hpi) as Hn. unfold entry_named in *.
  destruct Hrec as [[-> ->]|[-> ->]]; [by intros [? ?] | done].
Qed.

Lemma onClientClosed_entries_named st client :
  entries_named st → entries_named (onClientClosed st client).1.1.
Proof.
  intros Hok p pi' Hl.
  destruct (onClientClosed_entry _ _ _ _ Hl) as (pi & Hpi & Hcase).
  pose proof (Hok _ _ Hpi) as Hn.
  destruct Hcase as [->|(_ & _ & _ & Hrec)]; [done|].
  unfold entry_named in *.
  destruct Hrec as [[-> ->]|(-> & -> & _)]; [by intros [? ?] | done].
Qed.

(** *** One event *)

Lemma step_refs_consistent st e :
  refs_consistent st → refs_consistent (step st e).1.1.
Proof.
  intros H. destruct e as [c|c u s|c x s|c u s|c x s|c u s|c]; cbn [step]; try done.
  - pose proof (onPlay_refs_consistent st c x s H).
    by destruct (onPlay st c x s).
  - pose proof (onRecord_refs_consistent st c x s H).
    by destruct (onRecord st c x s).
  - pose proof (onTeardown_refs_consistent st c u s H).
    by destruct (onTeardown st c u s).
  - by apply onClientClosed_refs_consistent.
Qed.

Lemma step_entries_ok st e : entries_ok st → entries_ok (step st e).1.1.
Proof.
  intros H. destruct e as [c|c u s|c x s|c u s|c x s|c u s|c]; cbn [step]; try done.
  - pose proof (onPlay_entries_ok st c x s H).
    by destruct (onPlay st c x s).
  - pose proof (onRecord_entries_ok st c x s H).
    by destruct (onRecord st c x s).
  - pose proof (onTeardown_entries_ok st c u s H).
    by destruct (onTeardown st c u s).
  - by apply onClientClosed_entries_ok.
Qed.

Lemma step_entries_named st e :
  named_session e = true → entries_named st → entries_named (step st e).1.1.
Proof.
  intros Hn H.
  destruct e as [c|c u s|c x s|c u s|c x s|c u s|c]; cbn [step]; try done.
  - pose proof (onPlay_entries_named st c x s H).
    by destruct (onPlay st c x s).
  - cbn in Hn. apply negb_true_iff, String.eqb_neq in Hn.
    pose proof (onRecord_entries_named st c x s Hn H).
    by destruct (onRecord st c x s).
  - pose proof (onTeardown_entries_named st c u s H).
    by destruct (onTeardown st c u s).
  - by apply onClientClosed_entries_named.
Qed.

Lemma step_limit st e :
  maxClientsPerPath (step st e).1.1 = maxClientsPerPath st.
Proof.
  destruct e as [c|c u s|c x s|c u s|c x s|c u s|c]; cbn [step];
    [done | done | | done | | | ].
  - pose proof (onPlay_unfold st c x s) as H.
    destruct (onPlay st c x s) as [st' out]. by injection H as -> _.
  - pose proof (onRecord_unfold st c x s) as H.
    destruct (onRecord st c x s) as [st' out]. by injection H as -> _.
  - destruct (onTeardown_views st c u s) as (_ & H & _).
    by destruct (onTeardown st c u s).
  - destruct (clients st !! c) as [ci|] eqn:Hc.
    + by destruct (onClientClosed_known st c ci Hc) as (_ & _ & ? & _).
    + unfold onClientClosed. by rewrite Hc.
Qed.

Lemma step_play_bounded st prev e :
  0 < maxClientsPerPath st →
  gate_ok st prev e = true →
  play_bounded st → play_bounded (step st e).1.1.
Proof.
  intros Hpos Hgate H p pi'. rewrite step_limit.
  destruct e as [c|c u s|c x s|c u s|c x s|c u s|c]; cbn [step]; try apply H.
  - (* a gated PLAY *)
    destruct prev as [[| c0 u0 s0 | | | | |]|]; try done.
    cbn in Hgate. apply andb_true_iff in Hgate as [Hpath Hok].
    apply bool_decide_eq_true in Hpath, Hok.
    pose proof (onPlay_unfold st c x s) as Hu.
    destruct (onPlay st c x s) as [st' out]. injection Hu as -> _. cbn [fst paths].
    destruct (decide (p = abspath (uri x))) as [->|Hne].
    2:{ rewrite lookup_insert_ne by done. apply H. }
    rewrite lookup_insert_eq. intros [= <-]. unfold played_entry. cbn [playCount].
    pose proof (u32_incr_le (playCount (entry_or_fresh st (abspath (uri x))))).
    destruct (entry_or_fresh_cases st (abspath (uri x))) as [Hl|[_ He]].
    + assert (Hnot : beforePlay st c0 u0 s0 ≠ GST_RTSP_STS_FORBIDDEN) by congruence.
      rewrite beforePlay_forbidden_iff, Hpath in Hnot.
      assert (¬ maxClientsPerPath st - 1
                ≤ playCount (entry_or_fresh st (abspath (uri x)))).
      { intros Hle. apply Hnot. eauto. }
      lia.
    + rewrite He in *. cbn in *. lia.
  - (* RECORD *)
    pose proof (onRecord_unfold st c x s) as Hu.
    destruct (onRecord st c x s) as [st' out]. injection Hu as -> _. cbn [fst paths].
    destruct (decide (p = abspath (uri x))) as [->|Hne].
    2:{ rewrite lookup_insert_ne by done. apply H. }
    rewrite lookup_insert_eq. intros [= <-].
    assert (playCount (recorded_entry st c (abspath (uri x)) s)
            = playCount (entry_or_fresh st (abspath (uri x)))) as ->.
    { unfold recorded_entry. by destruct (decide _). }
    destruct (entry_or_fresh_cases st (abspath (uri x))) as [Hl|[_ ->]].
    + by apply (H _ _ Hl).
    + cbn. lia.
  - (* TEARDOWN *)
    pose proof (onTeardown_entry st c u s p pi') as Hu.
    destruct (onTeardown st c u s) as [st' out]. cbn [fst] in *.
    intros Hl. destruct (Hu Hl) as (pi & Hpi & _ & Hle & _).
    pose proof (H _ _ Hpi). lia.
  - (* CLOSED *)
    intros Hl. destruct (onClientClosed_entry _ _ _ _ Hl) as (pi & Hpi & Hcase).
    pose proof (H _ _ Hpi).
    destruct Hcase as [->|(_ & _ & Hle & _)]; [done | lia].
Qed.

(** *** Runs *)

Lemma state_after_nil st : state_after st [] = st.
Proof. reflexivity. Qed.

Lemma state_after_cons st e evs :
  state_after st (e :: evs) = state_after (step st e).1.1 evs.
Proof.
  unfold state_after. cbn [run].
  destruct (step st e) as [[st1 out1] bad1]. cbn [fst].
  by destruct (run st1 evs) as [[st2 out2] bad2].
Qed.

Lemma run_refs_consistent evs : ∀ st,
  refs_consistent st → refs_consistent (state_after st evs).
Proof.
  induction evs as [|e evs IH]; intros st H; [done|].
  rewrite state_after_cons. by apply IH, step_refs_consistent.
Qed.

Lemma run_entries_ok evs : ∀ st,
  entries_ok st → entries_ok (state_after st evs).
Proof.
  induction evs as [|e evs IH]; intros st H; [done|].
  rewrite state_after_cons. by apply IH, step_entries_ok.
Qed.

Lemma run_entries_named evs : ∀ st,
  forallb named_session evs = true →
  entries_named st → entries_named (state_after st evs).
Proof.
  induction evs as [|e evs IH]; intros st Hn H; [done|].
  cbn in Hn. apply andb_true_iff in Hn as [He Hn].
  rewrite state_after_cons. by apply IH, step_entries_named.
Qed.

Lemma run_limit evs : ∀ st,
  maxClientsPerPath (state_after st evs) = maxClientsPerPath st.
Proof.
  induction evs as [|e evs IH]; intros st; [done|].
  by rewrite state_after_cons, IH, step_limit.
Qed.

Lemma run_play_bounded evs : ∀ st prev,
  0 < maxClientsPerPath st →
  play_gated st prev evs = true →
  play_bounded st → play_bounded (state_after st evs).
Proof.
  induction evs as [|e evs IH]; intros st prev Hpos Hg H; [done|].
  cbn in Hg. apply andb_true_iff in Hg as [He Hg].
  rewrite state_after_cons. apply (IH _ (Some e)).
  - by rewrite step_limit.
  - done.
  - by apply (step_play_bounded st prev).
Qed.

Lemma initial_refs_consistent maxPaths maxClients :
  refs_consistent (initial maxPaths maxClients).
Proof.
  intros c p. unfold ref_paths_of, ref_clients_of.
  by rewrite clients_initial, paths_initial, !lookup_empty.
Qed.

Lemma initial_no_entry maxPaths maxClients p pi :
  paths (initial maxPaths maxClients) !! p = Some pi → False.
Proof. by rewrite paths_initial, lookup_empty. Qed.

(** ** Reachable stores *)

(** In a store reached from the empty one the test of [isRecording] and
    [onRecord] comes down to [recordClient] being set. *)
Lemma reachable_recorder_test maxPaths maxClients (evs : list Event) p pi :
  paths (state_after (initial maxPaths maxClients) evs) !! p = Some pi →
  recorder_marked pi ↔ is_Some (recordClient pi).
Proof.
  intros Hl.
  assert (Hok : entries_ok (state_after (initial maxPaths maxClients) evs)).
  { apply run_entries_ok. intros q qi Hq. by apply initial_no_entry in Hq. }
  destruct (Hok _ _ Hl) as (_ & Hs & _). unfold recorder_marked. tauto.
Qed.

Lemma reachable_fresh_recorder_test maxPaths maxClients (evs : list Event) p :
  let old := entry_or_fresh (state_after (initial maxPaths maxClients) evs) p in
  (is_Some (recordClient old) ∨ recordSessionId old ≠ "")
  ↔ is_Some (recordClient old).
Proof.
  intros old.
  assert (Hok : entries_ok (state_after (initial maxPaths maxClients) evs)).
  { apply run_entries_ok. intros q qi Hq. by apply initial_no_entry in Hq. }
  destruct (entry_or_fresh_recorder _ p Hok) as [Hs _]. fold old in Hs. tauto.
Qed.

(** C5: in every state the handlers reach from the empty store,
    [on_record (client, path, session_id)] registers the client/path
    reference on both sides; then, if the path's [record_client] is
    already set, [record_client] and [record_session_id] are left as they
    are and no notification is emitted; otherwise [record_client] is set
    to the client, [record_session_id] to the session id, and
    [recorder_connected (user ctx) path] is emitted exactly once.  The
    play count, every other path entry and every other client entry stay
    as they were. *)
Theorem onRecord_spec maxPaths maxClients (evs : list Event) client ctx sessionId :
  let st := state_after (initial maxPaths maxClients) evs in
  let path := abspath (uri ctx) in
  let st' := (onRecord st client ctx sessionId).1 in
  let out := (onRecord st client ctx sessionId).2 in
  let old := entry_or_fresh st path in
  (is_Some (clients st' !! client)
   ∧ ref_paths_of st' client = ref_paths_of st client ∪ {[path]}
   ∧ ref_clients_of st' path = ref_clients_of st path ∪ {[client]})
  ∧ (∃ pi', paths st' !! path = Some pi'
            ∧ playCount pi' = playCount old
            ∧ if decide (is_Some (recordClient old))
              then recordClient pi' = recordClient old
                   ∧ recordSessionId pi' = recordSessionId old
                   ∧ out = []
              else recordClient pi' = Some client
                   ∧ recordSessionId pi' = sessionId
                   ∧ out = [recorderConnected (user ctx) path])
  ∧ (∀ c, c ≠ client → clients st' !! c = clients st !! c)
  ∧ (∀ p, p ≠ path → paths st' !! p = paths st !! p)
  ∧ maxPathsCount st' = maxPathsCount st
  ∧ maxClientsPerPath st' = maxClientsPerPath st.
Proof.
  intros st path st' out old.
  destruct (onRecord_every_store st client ctx sessionId)
    as (Hreg & (pi' & Hl & Hpc & Hcase) & Hframe).
  pose proof (reachable_fresh_recorder_test maxPaths maxClients evs path) as Htest.
  cbv zeta in Htest. fold st path old in Hcase, Htest. fold out in Hcase.
  split; [exact Hreg|]. split; [|exact Hframe].
  exists pi'. split; [exact Hl|]. split; [exact Hpc|].
  destruct (decide (is_Some (recordClient old) ∨ recordSessionId old ≠ ""))
    as [Hy|Hn], (decide (is_Some (recordClient old))) as [Hy'|Hn'].
  - exact Hcase.
  - exfalso. by apply Hn', Htest.
  - exfalso. by apply Hn, Htest.
  - exact Hcase.
Qed.

(** C9: in every state the handlers reach from the empty store,
    [pre_record (client, path, session_id)] answers 503 if and only if the
    path has an entry whose [record_client] is set, which is when
    [is_recording] is true, and answers OK otherwise; neither of the two
    writes to the store or emits a notification: the store after the
    check is the store before it, and a run goes on after the check
    exactly as it would have gone on without it. *)
Theorem pre_record_spec maxPaths maxClients (evs : list Event) client url sessionId :
  let st := state_after (initial maxPaths maxClients) evs in
  (beforeRecord st client url sessionId = GST_RTSP_STS_SERVICE_UNAVAILABLE
   ↔ ∃ pi, paths st !! abspath url = Some pi ∧ is_Some (recordClient pi))
  ∧ (isRecording st client (abspath url) = true
     ↔ ∃ pi, paths st !! abspath url = Some pi ∧ is_Some (recordClient pi))
  ∧ (beforeRecord st client url sessionId ≠ GST_RTSP_STS_SERVICE_UNAVAILABLE
     ↔ beforeRecord st client url sessionId = GST_RTSP_STS_OK)
  ∧ step st (EvPreRecord client url sessionId) = (st, [], [])
  ∧ (∀ evs', run st (EvPreRecord client url sessionId :: evs') = run st evs').
Proof.
  intros st.
  destruct (pre_record_every_store st client url sessionId)
    as (Hiff & Hrec & Hok & _).
  assert (Hset : (∃ pi, paths st !! abspath url = Some pi
                        ∧ (is_Some (recordClient pi) ∨ recordSessionId pi ≠ ""))
                 ↔ ∃ pi, paths st !! abspath url = Some pi
                         ∧ is_Some (recordClient pi)).
  { split; intros (pi & Hl & Hm); exists pi; (split; [exact Hl|]).
    - by apply (reachable_recorder_test maxPaths maxClients evs _ _ Hl).
    - by left. }
  split; [by rewrite Hiff|]. split; [by rewrite <- Hrec, Hiff|].
  split; [exact Hok|]. split; [reflexivity|].
  intros evs'. cbn [run step]. by destruct (run st evs') as [[st2 out2] bad2].
Qed.

(** C3, as stated, fails: a RECORD whose session id is the empty string
    sets the recorder client and leaves the session id empty. *)
Lemma recorder_pairing_refuted :
  let ctx := mkContext (mkUrl "/a") None in
  let st := state_after (initial 0 0) [EvRecord 1%positive ctx ""] in
  ¬ (∀ p pi, paths st !! p = Some pi →
       (is_Some (recordClient pi) ↔ recordSessionId pi ≠ "")).
Proof.
  intros ctx st H.
  assert (Hl : paths st !! "/a"
               = Some (mkPathInfo {[ 1%positive ]} 0 (Some 1%positive) ""))
    by (vm_compute; reflexivity).
  destruct (H _ _ Hl) as [Hset _].
  apply Hset; [cbn; eauto | reflexivity].
Qed.

(** C3 (amended): every store reached from the empty one by PLAY, RECORD,
    TEARDOWN and connection-closed events (the admission checks and
    client-connected change nothing) satisfies (a) [p] is in
    [clients[c].ref_paths] iff [c] is in [paths[p].ref_clients]; (b) in
    every path entry a non-empty [record_session_id] comes with a set
    [record_client], the converse holding when every RECORD of the run
    carried a non-empty session id, and a set recorder is one of
    [ref_clients]; (c) a path entry exists iff its [ref_clients] is not
    empty. *)
Theorem reachable_invariants maxPaths maxClients (evs : list Event) :
  let st := state_after (initial maxPaths maxClients) evs in
  (∀ c p, p ∈ ref_paths_of st c ↔ c ∈ ref_clients_of st p)
  ∧ (∀ p pi, paths st !! p = Some pi →
       (recordSessionId pi ≠ "" → is_Some (recordClient pi))
       ∧ (forallb named_session evs = true →
          is_Some (recordClient pi) → recordSessionId pi ≠ "")
       ∧ (∀ c, recordClient pi = Some c → c ∈ refClients pi))
  ∧ (∀ p, is_Some (paths st !! p) ↔ ref_clients_of st p ≠ ∅).
Proof.
  intros st.
  assert (Hok : entries_ok st).
  { apply run_entries_ok. intros p pi Hl. by apply initial_no_entry in Hl. }
  split; [|split].
  - apply run_refs_consistent, initial_refs_consistent.
  - intros p pi Hl. destruct (Hok _ _ Hl) as (_ & Hs & Hr).
    split; [done|]. split; [|done].
    intros Hn.
    assert (Hnamed : entries_named st).
    { apply run_entries_named; [done|].
      intros q qi Hq. by apply initial_no_entry in Hq. }
    exact (Hnamed _ _ Hl).
  - intros p. unfold ref_clients_of.
    destruct (paths st !! p) as [pi|] eqn:Hl.
    + destruct (Hok _ _ Hl) as (Hne & _). split; [done | eauto].
    + split; [by intros [? ?] | done].
Qed.

Lemma reachable_invariants_witness :
  let ctx := mkContext (mkUrl "/a") None in
  let evs := [EvRecord 1%positive ctx "s1"; EvPlay 2%positive ctx "s2";
              EvClosed 2%positive] in
  let st := state_after (initial 0 0) evs in
  let pi := mkPathInfo {[ 1%positive ]} 0 (Some 1%positive) "s1" in
  paths st !! "/a" = Some pi
  ∧ forallb named_session evs = true
  ∧ recordSessionId pi ≠ "".
Proof.
  intros ctx evs st pi.
  assert (Hl : paths st !! "/a" = Some pi) by (vm_compute; reflexivity).
  assert (Hn : forallb named_session evs = true) by (vm_compute; reflexivity).
  split; [exact Hl|]. split; [exact Hn|].
  destruct (reachable_invariants 0 0 evs) as (_ & Hb & _).
  destruct (Hb "/a" pi Hl) as (_ & Hnamed & _).
  apply Hnamed; [exact Hn|]. cbn. eauto.
Defined.

(** ** The limit on players *)

(** C7: with [maxClientsPerPath > 0], if every PLAY of a run from the empty
    store comes right after a [pre_play] check on the same path that
    answered OK, no path entry of the store reached has a play count above
    [maxClientsPerPath]. *)
Theorem play_count_bounded maxPaths maxClients (evs : list Event) :
  0 < maxClients →
  play_gated (initial maxPaths maxClients) None evs = true →
  ∀ p pi,
    paths (state_after (initial maxPaths maxClients) evs) !! p = Some pi →
    playCount pi ≤ maxClients.
Proof.
  intros Hpos Hg p pi Hl.
  assert (Hb : play_bounded (state_after (initial maxPaths maxClients) evs)).
  { apply (run_play_bounded evs _ None); [done | done |].
    intros q qi Hq. by apply initial_no_entry in Hq. }
  specialize (Hb p pi Hl). by rewrite run_limit in Hb.
Qed.

Lemma play_count_bounded_witness :
  let a := mkUrl "/a" in
  let ctx := mkContext a None in
  let evs := [EvPrePlay 1%positive a "s1"; EvPlay 1%positive ctx "s1";
              EvRecord 3%positive ctx "r1";
              EvPrePlay 2%positive a "s2"; EvPlay 2%positive ctx "s2";
              EvPrePlay 4%positive a "s4"] in
  0 < 3
  ∧ play_gated (initial 0 3) None evs = true
  ∧ (playCount <$> paths (state_after (initial 0 3) evs) !! "/a") = Some 2
  ∧ ∀ p pi, paths (state_after (initial 0 3) evs) !! p = Some pi →
            playCount pi ≤ 3.
Proof.
  intros a ctx evs.
  assert (Hpos : 0 < 3) by lia.
  assert (Hg : play_gated (initial 0 3) None evs = true) by (vm_compute; reflexivity).
  split; [exact Hpos|]. split; [exact Hg|]. split; [vm_compute; reflexivity|].
  exact (play_count_bounded 0 3 evs Hpos Hg).
Defined.

(** ** Abrupt closes *)

(** C8 does not hold of the code: two players on a path that both vanish
    without TEARDOWN reach the assertion of line 429 with a play count of
    2, and two such players beside a recorder reach the one of line 454
    with a play count of 2.  Every PLAY below is gated by its [pre_play]. *)
Theorem abrupt_close_fails_assertions :
  let a := mkUrl "/a" in
  let ctx := mkContext a None in
  let players := [EvClientConnected 1%positive;
                  EvPrePlay 1%positive a "s1"; EvPlay 1%positive ctx "s1";
                  EvClientConnected 2%positive;
                  EvPrePlay 2%positive a "s2"; EvPlay 2%positive ctx "s2";
                  EvClosed 1%positive; EvClosed 2%positive] in
  let beside_recorder :=
                 [EvPreRecord 3%positive a "r1"; EvRecord 3%positive ctx "r1";
                  EvPrePlay 1%positive a "s1"; EvPlay 1%positive ctx "s1";
                  EvPrePlay 2%positive a "s2"; EvPlay 2%positive ctx "s2";
                  EvClosed 1%positive; EvClosed 2%positive] in
  (play_gated (initial 0 0) None players = true
   ∧ failed (initial 0 0) players = [lastRefPlayCount "/a" 2])
  ∧ (play_gated (initial 0 0) None beside_recorder = true
     ∧ failed (initial 0 0) beside_recorder = [recorderLeftPlayCount "/a" 2]).
Proof. vm_compute. repeat split; reflexivity. Qed.

(** C6 does not hold of the code: the same two players leave the store
    empty again with one [first_player_connected] emitted for the path and
    no [last_player_disconnected]; and a client that records and plays on
    a path and then vanishes does the same, this time without failing any
    assertion. *)
Theorem abrupt_close_unbalanced :
  let a := mkUrl "/a" in
  let ctx := mkContext a None in
  let players := [EvPlay 1%positive ctx "s1"; EvPlay 2%positive ctx "s2";
                  EvClosed 1%positive; EvClosed 2%positive] in
  let both_roles := [EvRecord 1%positive ctx "r1"; EvPlay 1%positive ctx "s1";
                     EvClosed 1%positive] in
  (state_after (initial 0 0) players = initial 0 0
   ∧ emitted (initial 0 0) players = [firstPlayerConnected "" "/a"])
  ∧ (state_after (initial 0 0) both_roles = initial 0 0
     ∧ emitted (initial 0 0) both_roles
       = [recorderConnected "" "/a"; firstPlayerConnected "" "/a";
          recorderDisconnected "/a"]
     ∧ failed (initial 0 0) both_roles = []).
Proof. vm_compute. repeat split; reflexivity. Qed.

(** ** Recorder notifications *)

Lemma alternates_app on l1 l2 :
  alternates on (l1 ++ l2) = alternates on l1 ≫= λ on', alternates on' l2.
Proof.
  revert on. induction l1 as [|b l1 IH]; intros on; cbn; [done|].
  destruct (Bool.eqb b on); [done | apply IH].
Qed.

Lemma alternates_counts l : ∀ on on',
  alternates on l = Some on' →
  (count_mark true l + Nat.b2n on = count_mark false l + Nat.b2n on')%nat.
Proof.
  induction l as [|b l IH]; intros on on'; cbn.
  - by intros [= ->].
  - destruct b, on; cbn; try done; intros H; apply IH in H; cbn in H; lia.
Qed.

Lemma recorder_log_app p l1 l2 :
  recorder_log p (l1 ++ l2) = (recorder_log p l1 ++ recorder_log p l2)%list.
Proof. apply omap_app. Qed.

Lemma recorder_log_disconnected p q :
  recorder_log p [recorderDisconnected q] = if decide (q = p) then [false] else [].
Proof. unfold recorder_log. cbn. by destruct (decide (q = p)). Qed.

Lemma recorder_log_connected p u q :
  recorder_log p [recorderConnected u q] = if decide (q = p) then [true] else [].
Proof. unfold recorder_log. cbn. by destruct (decide (q = p)). Qed.

Lemma recorder_log_last p q : recorder_log p [lastPlayerDisconnected q] = [].
Proof. reflexivity. Qed.

Lemma recorder_log_first p u q : recorder_log p [firstPlayerConnected u q] = [].
Proof. reflexivity. Qed.

(** The notifications of one turn of the loop, read as recorder marks. *)
Lemma closeEntry_log client a pi p :
  recorder_log p (closeEntry client a pi).1.2
  = if decide (a = p)
    then if bool_decide (is_Some (recordClient pi))
            && negb (match (closeEntry client a pi).1.1 with
                     | Some pi' => bool_decide (is_Some (recordClient pi'))
                     | None => false
                     end)
         then [false] else []
    else [].
Proof.
  destruct pi as [rs pc rc sid]. unfold closeEntry.
  cbn [set_refClients set_recorder set_playCount
       refClients playCount recordClient recordSessionId].
  destruct (decide (rs ∖ {[client]} = ∅)) as [He|Hne].
  - destruct rc as [c|].
    + cbn [fst snd]. rewrite recorder_log_disconnected.
      by destruct (decide (a = p)).
    + destruct (pc =? 1); cbn [fst snd]; by destruct (decide (a = p)).
  - destruct (decide (Some client = rc)) as [<-|Hc].
    + rewrite bool_decide_eq_true_2 by done.
      cbn [set_refClients set_recorder set_playCount
           refClients playCount recordClient recordSessionId].
      destruct (size _ =? 1)%nat; cbn [fst snd];
        rewrite recorder_log_disconnected; by destruct (decide (a = p)).
    + rewrite bool_decide_eq_false_2 by done.
      cbn [set_refClients set_recorder set_playCount
           refClients playCount recordClient recordSessionId].
      destruct (size _ =? 1)%nat, rc as [c|]; cbn [fst snd];
        try (destruct (pc =? 1); cbn [fst snd]);
        cbn; by destruct (decide (a = p)).
Qed.

Lemma closeRef_log client ps out bad a p :
  recorder_log p (closeRef client (ps, out, bad) a).1.2
  = (recorder_log p out
     ++ match ps !! a with
        | Some pi => recorder_log p (closeEntry client a pi).1.2
        | None => []
        end)%list.
Proof.
  unfold closeRef. destruct (ps !! a) as [pi|].
  - destruct (closeEntry client a pi) as [[entry out'] bad']. cbn [fst snd].
    apply recorder_log_app.
  - cbn [fst snd]. by rewrite app_nil_r.
Qed.

Lemma foldl_closeRef_log client p l : ∀ acc,
  NoDup l →
  recorder_log p (foldl (closeRef client) acc l).1.2
  = (recorder_log p acc.1.2
     ++ if decide (p ∈ l)
        then match acc.1.1 !! p with
             | Some pi => recorder_log p (closeEntry client p pi).1.2
             | None => []
             end
        else [])%list.
Proof.
  induction l as [|a l IH]; intros [[ps out] bad] Hnd.
  - cbn. rewrite decide_False by apply not_elem_of_nil. by rewrite app_nil_r.
  - apply NoDup_cons in Hnd as [Ha Hnd]. cbn [foldl]. rewrite IH by done.
    rewrite closeRef_log, closeRef_lookup. cbn [fst snd].
    destruct (decide (p = a)) as [->|Hne].
    + rewrite decide_False by done. rewrite decide_True by left.
      by rewrite app_nil_r.
    + assert (match ps !! a with
              | Some pi => recorder_log p (closeEntry client a pi).1.2
              | None => []
              end = []) as ->.
      { destruct (ps !! a); [|done]. rewrite closeEntry_log.
        rewrite decide_False; [done | congruence]. }
      rewrite app_nil_r.
      destruct (decide (p ∈ l)) as [Hin|Hnin].
      * rewrite decide_True by (by right). done.
      * rewrite decide_False; [done|]. intros [?|?]%elem_of_cons; done.
Qed.

Lemma onClientClosed_recorder st client p :
  alternates (recording st p) (recorder_log p (onClientClosed st client).1.2)
  = Some (recording (onClientClosed st client).1.1 p).
Proof.
  destruct (clients st !! client) as [ci|] eqn:Hc.
  2:{ unfold onClientClosed. by rewrite Hc. }
  destruct (onClientClosed_known st client ci Hc) as (_ & _ & _ & Hl).
  unfold recording at 2. rewrite Hl. clear Hl.
  unfold onClientClosed. rewrite Hc.
  pose proof (foldl_closeRef_log client p (set_order (refPaths ci))
                (paths st, [], []) (set_order_NoDup _)) as Hlog.
  destruct (foldl (closeRef client) (paths st, [], []) (set_order (refPaths ci)))
    as [[ps out] bad].
  cbn [fst snd] in *. rewrite Hlog. clear Hlog. cbn [recorder_log omap list_omap app].
  unfold recording.
  destruct (decide (p ∈ refPaths ci)) as [Hin|Hnin].
  - rewrite decide_True by (by apply set_order_elem).
    destruct (paths st !! p) as [pi|]; [|done]. cbn [mbind option_bind].
    rewrite closeEntry_log, decide_True by done.
    assert (Hkeep : ∀ pi', (closeEntry client p pi).1.1 = Some pi' →
              is_Some (recordClient pi') → is_Some (recordClient pi)).
    { intros pi' He. pose proof (closeEntry_entry client p pi) as Hent.
      rewrite He in Hent. destruct Hent as (_ & _ & _ & [[-> _]|(-> & _)]); [|done].
      by intros [? ?]. }
    destruct ((closeEntry client p pi).1.1) as [pi'|].
    + specialize (Hkeep pi' eq_refl).
      destruct (decide (is_Some (recordClient pi))) as [Hy|Hn].
      * rewrite (bool_decide_eq_true_2 _ Hy).
        destruct (decide (is_Some (recordClient pi'))) as [Hy'|Hn'].
        -- by rewrite (bool_decide_eq_true_2 _ Hy').
        -- by rewrite (bool_decide_eq_false_2 _ Hn').
      * rewrite (bool_decide_eq_false_2 _ Hn).
        rewrite bool_decide_eq_false_2 by tauto. done.
    + by destruct (bool_decide (is_Some (recordClient pi))).
  - rewrite decide_False by (by rewrite set_order_elem).
    by destruct (paths st !! p).
Qed.

Lemma recording_entry_or_fresh st p :
  recording st p = bool_decide (is_Some (recordClient (entry_or_fresh st p))).
Proof.
  unfold recording, entry_or_fresh. destruct (paths st !! p); [done|].
  symmetry. apply bool_decide_eq_false_2. by intros [? ?].
Qed.

Lemma onPlay_recorder st client ctx sessionId p :
  alternates (recording st p) (recorder_log p (onPlay st client ctx sessionId).2)
  = Some (recording (onPlay st client ctx sessionId).1 p).
Proof.
  rewrite onPlay_unfold. cbn [fst snd].
  assert (recorder_log p
            (if playCount (played_entry st client (abspath (uri ctx))) =? 1
             then [firstPlayerConnected (user ctx) (abspath (uri ctx))] else [])
          = []) as -> by (by destruct (_ =? 1)).
  cbn [alternates]. f_equal. unfold recording at 2. cbn [paths].
  destruct (decide (p = abspath (uri ctx))) as [->|Hne].
  - rewrite lookup_insert_eq, recording_entry_or_fresh. done.
  - by rewrite lookup_insert_ne.
Qed.

Lemma onRecord_recorder st client ctx sessionId p :
  alternates (recording st p) (recorder_log p (onRecord st client ctx sessionId).2)
  = Some (recording (onRecord st client ctx sessionId).1 p).
Proof.
  rewrite onRecord_unfold. cbn [fst snd].
  unfold recording at 2. cbn [paths].
  destruct (decide (p = abspath (uri ctx))) as [->|Hne].
  - rewrite lookup_insert_eq, recording_entry_or_fresh. unfold recorded_entry.
    destruct (decide (recorder_marked (entry_or_fresh st (abspath (uri ctx)))))
      as [Hm|Hm]; cbn [recordClient].
    + done.
    + rewrite recorder_log_connected, decide_True by done.
      rewrite bool_decide_eq_false_2 by (intros ?; apply Hm; by left).
      reflexivity.
  - rewrite lookup_insert_ne by done.
    assert (recorder_log p
              (if decide (recorder_marked (entry_or_fresh st (abspath (uri ctx))))
               then [] else [recorderConnected (user ctx) (abspath (uri ctx))])
            = []) as ->.
    { destruct (decide _); [done|].
      rewrite recorder_log_connected. by rewrite decide_False by done. }
    done.
Qed.

Lemma onTeardown_recorder st client url sessionId p :
  alternates (recording st p) (recorder_log p (onTeardown st client url sessionId).2)
  = Some (recording (onTeardown st client url sessionId).1 p).
Proof.
  unfold onTeardown.
  destruct (paths st !! abspath url) as [pi|] eqn:Hp; [|done].
  destruct (bool_decide (Some client = recordClient pi)
            && String.eqb sessionId (recordSessionId pi)) eqn:Hrec.
  - apply andb_true_iff in Hrec as [Hc%bool_decide_eq_true _]. cbn [fst snd].
    rewrite recorder_log_disconnected.
    unfold recording, store_path, set_paths. cbn [paths].
    destruct (decide (abspath url = p)) as [<-|Hne].
    + rewrite Hp, lookup_insert_eq. cbn [set_recorder recordClient].
      rewrite bool_decide_eq_true_2 by (rewrite <- Hc; eauto).
      rewrite bool_decide_eq_false_2 by (by intros [? ?]). done.
    + by rewrite lookup_insert_ne.
  - destruct (0 <? playCount pi); cbn [fst snd]; [|done].
    assert (recorder_log p
              (if playCount (set_playCount (u32_decr (playCount pi)) pi) =? 0
               then [lastPlayerDisconnected (abspath url)] else []) = []) as ->
      by (by destruct (_ =? 0)).
    cbn [alternates]. f_equal.
    unfold recording, store_path, set_paths. cbn [paths].
    destruct (decide (abspath url = p)) as [<-|Hne].
    + by rewrite Hp, lookup_insert_eq.
    + by rewrite lookup_insert_ne.
Qed.

Lemma step_recorder st e p :
  alternates (recording st p) (recorder_log p (step st e).1.2)
  = Some (recording (step st e).1.1 p).
Proof.
  destruct e as [c|c u s|c x s|c u s|c x s|c u s|c]; cbn [step];
    [done | done | | done | | | ].
  - pose proof (onPlay_recorder st c x s p).
    by destruct (onPlay st c x s).
  - pose proof (onRecord_recorder st c x s p).
    by destruct (onRecord st c x s).
  - pose proof (onTeardown_recorder st c u s p).
    by destruct (onTeardown st c u s).
  - apply onClientClosed_recorder.
Qed.

Lemma emitted_cons st e evs :
  emitted st (e :: evs) = ((step st e).1.2 ++ emitted (step st e).1.1 evs)%list.
Proof.
  unfold emitted. cbn [run].
  destruct (step st e) as [[st1 out1] bad1]. cbn [fst snd].
  by destruct (run st1 evs) as [[st2 out2] bad2].
Qed.

Lemma run_recorder evs p : ∀ st,
  alternates (recording st p) (recorder_log p (emitted st evs))
  = Some (recording (state_after st evs) p).
Proof.
  induction evs as [|e evs IH]; intros st; [done|].
  rewrite emitted_cons, state_after_cons, recorder_log_app, alternates_app.
  rewrite step_recorder. cbn [mbind option_bind]. apply IH.
Qed.

(** For every run from the empty store and every path, the recorder
    notifications about the path alternate, starting with
    [recorder_connected]; there are as many of either kind when the run
    ends with no recorder on the path (as when the store is empty again),
    and one [recorder_connected] more when it ends with one. *)
Theorem recorder_notifications_alternate maxPaths maxClients (evs : list Event) p :
  let st := state_after (initial maxPaths maxClients) evs in
  let log := recorder_log p (emitted (initial maxPaths maxClients) evs) in
  alternates false log = Some (recording st p)
  ∧ count_mark true log = (count_mark false log + Nat.b2n (recording st p))%nat
  ∧ (paths st !! p = None → count_mark true log = count_mark false log).
Proof.
  intros st log.
  assert (Halt : alternates false log = Some (recording st p)).
  { subst st log.
    rewrite <- (run_recorder evs p (initial maxPaths maxClients)).
    unfold recording. by rewrite paths_initial, lookup_empty. }
  split; [done|].
  pose proof (alternates_counts _ _ _ Halt) as Hc. cbn in Hc.
  split; [lia|].
  intros Hnone. unfold recording in Hc. rewrite Hnone in Hc. cbn in Hc. lia.
Qed.

Lemma recorder_notifications_alternate_witness :
  let ctx := mkContext (mkUrl "/a") None in
  let evs := [EvRecord 1%positive ctx "r1"; EvPlay 2%positive ctx "s2";
              EvTeardown 1%positive (mkUrl "/a") "r1";
              EvRecord 2%positive ctx "r2"; EvClosed 2%positive;
              EvClosed 1%positive] in
  let log := recorder_log "/a" (emitted (initial 0 0) evs) in
  log = [true; false; true; false]
  ∧ paths (state_after (initial 0 0) evs) !! "/a" = None
  ∧ count_mark true log = count_mark false log.
Proof.
  intros ctx evs log.
  assert (Hn : paths (state_after (initial 0 0) evs) !! "/a" = None)
    by (vm_compute; reflexivity).
  split; [vm_compute; reflexivity|]. split; [exact Hn|].
  destruct (recorder_notifications_alternate 0 0 evs "/a") as (_ & _ & Hc).
  exact (Hc Hn).
Defined.

(** ** The scenarios of the specification, run on the model *)

(** Single player: PLAY emits [first_player_connected], TEARDOWN emits
    [last_player_disconnected], the close emits nothing more. *)
Example scenario_single_player :
  let a := mkUrl "/a" in
  let ctx := mkContext a None in
  run (initial 0 0)
    [EvPlay 1%positive ctx "s1"; EvTeardown 1%positive a "s1"; EvClosed 1%positive]
  = (initial 0 0,
     [firstPlayerConnected "" "/a"; lastPlayerDisconnected "/a"], []).
Proof. vm_compute. reflexivity. Qed.

(** Two players on a path: one [first_player_connected], and
    [last_player_disconnected] at the second TEARDOWN only. *)
Example scenario_two_players :
  let a := mkUrl "/a" in
  let ctx := mkContext a None in
  emitted (initial 0 0) [EvPlay 1%positive ctx "s1"; EvPlay 2%positive ctx "s2"]
  = [firstPlayerConnected "" "/a"]
  ∧ emitted (initial 0 0)
      [EvPlay 1%positive ctx "s1"; EvPlay 2%positive ctx "s2";
       EvTeardown 1%positive a "s1"]
    = [firstPlayerConnected "" "/a"]
  ∧ emitted (initial 0 0)
      [EvPlay 1%positive ctx "s1"; EvPlay 2%positive ctx "s2";
       EvTeardown 1%positive a "s1"; EvTeardown 2%positive a "s2"]
    = [firstPlayerConnected "" "/a"; lastPlayerDisconnected "/a"].
Proof. vm_compute. repeat split; reflexivity. Qed.

(** A recorder and a player: closing the recorder emits
    [recorder_disconnected] and the path stays, referenced by the player. *)
Example scenario_record_and_play :
  let a := mkUrl "/a" in
  let ctx := mkContext a None in
  let evs := [EvRecord 1%positive ctx "s1"; EvPlay 2%positive ctx "s2";
              EvClosed 1%positive] in
  emitted (initial 0 0) evs
  = [recorderConnected "" "/a"; firstPlayerConnected "" "/a";
     recorderDisconnected "/a"]
  ∧ paths (state_after (initial 0 0) evs) !! "/a"
    = Some (mkPathInfo {[ 2%positive ]} 1 None "").
Proof. vm_compute. repeat split; reflexivity. Qed.

(** A second RECORD on a path is refused with 503 by [pre_record]. *)
Example scenario_double_record :
  let a := mkUrl "/a" in
  let ctx := mkContext a None in
  let st := state_after (initial 0 0) [EvRecord 1%positive ctx "s1"] in
  status_number (beforeRecord st 2%positive a "s2") = 503
  ∧ status_number (beforeRecord (initial 0 0) 2%positive a "s2") = 200.
Proof. vm_compute. repeat split; reflexivity. Qed.

(** A single player that vanishes without TEARDOWN: the close emits
    [last_player_disconnected] and removes both entries. *)
Example scenario_abrupt_close :
  let ctx := mkContext (mkUrl "/a") None in
  run (initial 0 0) [EvPlay 1%positive ctx "s1"; EvClosed 1%positive]
  = (initial 0 0,
     [firstPlayerConnected "" "/a"; lastPlayerDisconnected "/a"], []).
Proof. vm_compute. reflexivity. Qed.

(** The role of the token is the user of the connect notifications. *)
Example scenario_user_of_token :
  let ctx := mkContext (mkUrl "/a") (Some "admin") in
  emitted (initial 0 0) [EvRecord 1%positive ctx "r1"; EvPlay 1%positive ctx "s1"]
  = [recorderConnected "admin" "/a"; firstPlayerConnected "admin" "/a"].
Proof. vm_compute. reflexivity. Qed.

(** The limit counts one client more than the players it lets in: with
    [maxClientsPerPath = 3] two players are let in on a fresh path and the
    third is refused with 403. *)
Example scenario_player_cap :
  let a := mkUrl "/a" in
  let ctx := mkContext a None in
  let st0 := initial 0 3 in
  let st1 := (onPlay st0 1%positive ctx "s1").1 in
  let st2 := (onPlay st1 2%positive ctx "s2").1 in
  status_number (beforePlay st0 1%positive a "s1") = 200
  ∧ status_number (beforePlay st1 2%positive a "s2") = 200
  ∧ status_number (beforePlay st2 3%positive a "s3") = 403.
Proof. vm_compute. repeat split; reflexivity. Qed.

(** * Further properties of the handlers *)

(** ** The limit on players, as the check enforces it *)

Lemma step_play_reach st prev e :
  0 < maxClientsPerPath st →
  gate_ok st prev e = true →
  plays_below (play_reach (maxClientsPerPath st)) st →
  plays_below (play_reach (maxClientsPerPath st)) (step st e).1.1.
Proof.
  intros Hpos Hgate H p pi'. unfold play_reach in *.
  destruct e as [c|c u s|c x s|c u s|c x s|c u s|c]; cbn [step]; try apply H.
  - destruct prev as [[| c0 u0 s0 | | | | |]|]; try done.
    cbn in Hgate. apply andb_true_iff in Hgate as [Hpath Hok].
    apply bool_decide_eq_true in Hpath, Hok.
    pose proof (onPlay_unfold st c x s) as Hu.
    destruct (onPlay st c x s) as [st' out]. injection Hu as -> _. cbn [fst paths].
    destruct (decide (p = abspath (uri x))) as [->|Hne].
    2:{ rewrite lookup_insert_ne by done. apply H. }
    rewrite lookup_insert_eq. intros [= <-]. unfold played_entry. cbn [playCount].
    pose proof (u32_incr_le (playCount (entry_or_fresh st (abspath (uri x))))).
    destruct (entry_or_fresh_cases st (abspath (uri x))) as [Hl|[_ He]].
    + assert (Hnot : beforePlay st c0 u0 s0 ≠ GST_RTSP_STS_FORBIDDEN) by congruence.
      rewrite beforePlay_forbidden_iff, Hpath in Hnot.
      assert (¬ maxClientsPerPath st - 1
                ≤ playCount (entry_or_fresh st (abspath (uri x)))).
      { intros Hle. apply Hnot. eauto. }
      lia.
    + rewrite He in *. cbn in *. lia.
  - pose proof (onRecord_unfold st c x s) as Hu.
    destruct (onRecord st c x s) as [st' out]. injection Hu as -> _. cbn [fst paths].
    destruct (decide (p = abspath (uri x))) as [->|Hne].
    2:{ rewrite lookup_insert_ne by done. apply H. }
    rewrite lookup_insert_eq. intros [= <-].
    assert (playCount (recorded_entry st c (abspath (uri x)) s)
            = playCount (entry_or_fresh st (abspath (uri x)))) as ->.
    { unfold recorded_entry. by destruct (decide _). }
    destruct (entry_or_fresh_cases st (abspath (uri x))) as [Hl|[_ ->]].
    + by apply (H _ _ Hl).
    + cbn. lia.
  - pose proof (onTeardown_entry st c u s p pi') as Hu.
    destruct (onTeardown st c u s) as [st' out]. cbn [fst] in *.
    intros Hl. destruct (Hu Hl) as (pi & Hpi & _ & Hle & _).
    pose proof (H _ _ Hpi). lia.
  - intros Hl. destruct (onClientClosed_entry _ _ _ _ Hl) as (pi & Hpi & Hcase).
    pose proof (H _ _ Hpi).
    destruct Hcase as [->|(_ & _ & Hle & _)]; [done | lia].
Qed.

Lemma run_play_reach evs : ∀ st prev,
  0 < maxClientsPerPath st →
  play_gated st prev evs = true →
  plays_below (play_reach (maxClientsPerPath st)) st →
  plays_below (play_reach (maxClientsPerPath st)) (state_after st evs).
Proof.
  induction evs as [|e evs IH]; intros st prev Hpos Hg H; [done|].
  cbn in Hg. apply andb_true_iff in Hg as [He Hg].
  rewrite state_after_cons.
  rewrite <- (step_limit st e). apply (IH _ (Some e)).
  - by rewrite step_limit.
  - done.
  - rewrite step_limit. by apply (step_play_reach st prev).
Qed.

(** With a limit [maxClientsPerPath > 0] and every PLAY gated by its
    [pre_play], a play count never exceeds [maxClientsPerPath - 1], or 1
    when the limit is 1: the check lets in one player fewer than the
    limit says, and one player on a fresh path whatever the limit. *)
Theorem gated_play_count_reach maxPaths maxClients (evs : list Event) :
  0 < maxClients →
  play_gated (initial maxPaths maxClients) None evs = true →
  ∀ p pi,
    paths (state_after (initial maxPaths maxClients) evs) !! p = Some pi →
    playCount pi ≤ N.max 1 (maxClients - 1).
Proof.
  intros Hpos Hg p pi Hl.
  pose proof (run_play_reach evs (initial maxPaths maxClients) None Hpos Hg) as Hb.
  apply (Hb ltac:(intros q qi Hq; by apply initial_no_entry in Hq) p pi Hl).
Qed.

Lemma gated_play_count_reach_witness :
  let a := mkUrl "/a" in
  let ctx := mkContext a None in
  let evs := [EvPrePlay 1%positive a "s1"; EvPlay 1%positive ctx "s1";
              EvPrePlay 2%positive a "s2"; EvPlay 2%positive ctx "s2";
              EvPrePlay 3%positive a "s3"] in
  0 < 3
  ∧ play_gated (initial 0 3) None evs = true
  ∧ (playCount <$> paths (state_after (initial 0 3) evs) !! "/a") = Some 2
  ∧ ∀ p pi, paths (state_after (initial 0 3) evs) !! p = Some pi →
            playCount pi ≤ N.max 1 (3 - 1).
Proof.
  intros a ctx evs.
  assert (Hpos : 0 < 3) by lia.
  assert (Hg : play_gated (initial 0 3) None evs = true) by (vm_compute; reflexivity).
  split; [exact Hpos|]. split; [exact Hg|]. split; [vm_compute; reflexivity|].
  exact (gated_play_count_reach 0 3 evs Hpos Hg).
Defined.

(** The edges of the check: without a limit ([maxClientsPerPath = 0]) and
    on a path without an entry [pre_play] always answers OK; with a limit
    of 1 it refuses every path that has an entry, whatever its play count,
    so a path opened by a recorder never lets a player in. *)
Theorem pre_play_edges (st : Private) client url sessionId :
  (maxClientsPerPath st = 0 → beforePlay st client url sessionId = GST_RTSP_STS_OK)
  ∧ (paths st !! abspath url = None
     → beforePlay st client url sessionId = GST_RTSP_STS_OK)
  ∧ (maxClientsPerPath st = 1 → is_Some (paths st !! abspath url)
     → beforePlay st client url sessionId = GST_RTSP_STS_FORBIDDEN)
  ∧ (∀ (ctx : GstRTSPContext) c s,
       maxClientsPerPath st = 1 → uri ctx = url →
       beforePlay (onRecord st c ctx s).1 client url sessionId
       = GST_RTSP_STS_FORBIDDEN).
Proof.
  split; [|split; [|split]].
  - intros Hz. destruct (beforePlay_ok_or_forbidden st client url sessionId)
      as [H|H]; [done|].
    apply beforePlay_forbidden_iff in H as [H _]. lia.
  - intros Hn. unfold beforePlay. by rewrite Hn.
  - intros H1 [pi Hpi]. apply beforePlay_forbidden_iff.
    split; [lia|]. exists pi. split; [done|]. lia.
  - intros ctx c s H1 <-. apply beforePlay_forbidden_iff.
    rewrite onRecord_unfold. cbn [fst maxClientsPerPath paths].
    split; [lia|]. eexists. rewrite lookup_insert_eq. split; [done|]. lia.
Qed.

Lemma pre_play_edges_witness :
  let a := mkUrl "/a" in
  let ctx := mkContext a None in
  let st := (onRecord (initial 0 1) 1%positive ctx "r1").1 in
  maxClientsPerPath st = 1
  ∧ (playCount <$> paths st !! "/a") = Some 0
  ∧ beforePlay st 2%positive a "s2" = GST_RTSP_STS_FORBIDDEN.
Proof.
  intros a ctx st.
  assert (H1 : maxClientsPerPath st = 1) by reflexivity.
  split; [exact H1|]. split; [vm_compute; reflexivity|].
  destruct (pre_play_edges st 2%positive a "s2") as (_ & _ & Hone & _).
  apply Hone; [exact H1|]. vm_compute. eauto.
Defined.

(** ** Registering a reference *)

Lemma registerPath_unfold client path st :
  registerPath client path st
  = (mkPrivate (maxPathsCount st) (maxClientsPerPath st)
       (<[client := mkClientInfo (ref_paths_of st client ∪ {[path]})]> (clients st))
       (<[path := set_refClients (ref_clients_of st path ∪ {[client]})
                     (entry_or_fresh st path)]> (paths st)),
     set_refClients (ref_clients_of st path ∪ {[client]}) (entry_or_fresh st path)).
Proof.
  pose proof (registerPath_entry client path st) as He.
  pose proof (registerPath_paths client path st) as Hp.
  pose proof (registerPath_clients client path st) as Hc.
  pose proof (registerPath_limits client path st) as [Hl1 Hl2].
  destruct (registerPath client path st) as [[mp mc cs ps] pi1].
  cbn [fst snd maxPathsCount maxClientsPerPath clients paths] in *.
  rewrite refClients_entry_or_fresh in He. by subst.
Qed.

(** [registerPath] is idempotent: registering the same client on the same
    path a second time leaves the store and the entry as the first time
    did; and it never touches the play count or the recorder of the
    entry. *)
Theorem registerPath_idempotent (st : Private) client path :
  registerPath client path (registerPath client path st).1
  = registerPath client path st
  ∧ playCount (registerPath client path st).2 = playCount (entry_or_fresh st path)
  ∧ recordClient (registerPath client path st).2
    = recordClient (entry_or_fresh st path)
  ∧ recordSessionId (registerPath client path st).2
    = recordSessionId (entry_or_fresh st path).
Proof.
  rewrite (registerPath_unfold client path st). cbn [fst snd].
  split; [|done].
  set (st1 := mkPrivate _ _ _ _).
  rewrite (registerPath_unfold client path st1).
  assert (Hr : ref_paths_of st1 client ∪ {[path]}
               = ref_paths_of st client ∪ {[path]}).
  { unfold ref_paths_of at 1. subst st1. cbn [clients].
    rewrite lookup_insert_eq. cbn. set_solver. }
  assert (He : entry_or_fresh st1 path
               = set_refClients (ref_clients_of st path ∪ {[client]})
                   (entry_or_fresh st path)).
  { unfold entry_or_fresh at 1. subst st1. cbn [paths].
    by rewrite lookup_insert_eq. }
  assert (Hc : ref_clients_of st1 path ∪ {[client]}
               = ref_clients_of st path ∪ {[client]}).
  { unfold ref_clients_of at 1. subst st1. cbn [paths].
    rewrite lookup_insert_eq. cbn. set_solver. }
  rewrite Hr, He, Hc. subst st1.
  cbn [maxPathsCount maxClientsPerPath clients paths].
  rewrite !insert_insert_eq. reflexivity.
Qed.

(** ** Sessions that end with a TEARDOWN *)

(** A PLAY followed by the TEARDOWN of the same client on the same path
    puts the play count back where it was, provided the counter does not
    wrap and the TEARDOWN is not taken for the recorder's; the two emit
    [first_player_connected] and [last_player_disconnected] exactly when
    the count was 0, and the client stays referenced. *)
Theorem play_then_teardown (st : Private) client ctx sessionId :
  let path := abspath (uri ctx) in
  let old := entry_or_fresh st path in
  let st1 := (onPlay st client ctx sessionId).1 in
  let st2 := (onTeardown st1 client (uri ctx) sessionId).1 in
  playCount old < UINT_MAX →
  ¬ (recordClient old = Some client ∧ recordSessionId old = sessionId) →
  paths st2 !! path
  = Some (mkPathInfo (refClients old ∪ {[client]}) (playCount old)
            (recordClient old) (recordSessionId old))
  ∧ clients st2 = clients st1
  ∧ (onPlay st client ctx sessionId).2
    = (if decide (playCount old = 0)
       then [firstPlayerConnected (user ctx) path] else [])
  ∧ (onTeardown st1 client (uri ctx) sessionId).2
    = (if decide (playCount old = 0)
       then [lastPlayerDisconnected path] else []).
Proof.
  intros path old st1 st2 Hlt Hrec.
  assert (Hinc : u32_incr (playCount old) = playCount old + 1).
  { unfold u32_incr. destruct (N.eqb_spec (playCount old) UINT_MAX); [lia|done]. }
  assert (Hst1 : paths st1 !! path = Some (played_entry st client path)).
  { subst st1. rewrite onPlay_unfold. cbn [fst paths]. by rewrite lookup_insert_eq. }
  assert (Htest : bool_decide (Some client = recordClient (played_entry st client path))
                  && String.eqb sessionId (recordSessionId (played_entry st client path))
                  = false).
  { unfold played_entry. cbn [recordClient recordSessionId]. fold old.
    apply andb_false_iff.
    destruct (decide (Some client = recordClient old)) as [Hc|Hc].
    - right. apply String.eqb_neq. intros ->. by apply Hrec.
    - left. by apply bool_decide_eq_false_2. }
  assert (Hpos : (0 <? playCount (played_entry st client path)) = true).
  { unfold played_entry. cbn [playCount]. fold old. rewrite Hinc.
    apply N.ltb_lt. lia. }
  split; [|split; [|split]].
  - subst st2. rewrite onTeardown_unfold. fold path. rewrite Hst1.
    unfold store_path, set_paths. cbn [paths]. rewrite lookup_insert_eq.
    unfold teardown_entry. rewrite Htest, Hpos.
    unfold played_entry, set_playCount. fold old.
    cbn [refClients playCount recordClient recordSessionId].
    rewrite Hinc, u32_decr_pos by lia. do 2 f_equal. lia.
  - subst st2. by destruct (onTeardown_views st1 client (uri ctx) sessionId).
  - rewrite onPlay_unfold. cbn [snd]. fold path. unfold played_entry. fold old.
    cbn [playCount]. rewrite Hinc.
    destruct (decide (playCount old = 0)) as [->|Hne]; [done|].
    destruct (N.eqb_spec (playCount old + 1) 1); [lia|done].
  - unfold onTeardown. fold path. rewrite Hst1, Htest, Hpos. cbn [snd].
    unfold played_entry, set_playCount. fold old. cbn [playCount].
    rewrite Hinc, u32_decr_pos by lia.
    destruct (decide (playCount old = 0)) as [->|Hne]; [done|].
    destruct (N.eqb_spec (playCount old + 1 - 1) 0); [lia|done].
Qed.

Lemma play_then_teardown_witness :
  let ctx := mkContext (mkUrl "/a") None in
  let st := (onRecord (initial 0 0) 1%positive ctx "r1").1 in
  let st1 := (onPlay st 2%positive ctx "s2").1 in
  let st2 := (onTeardown st1 2%positive (mkUrl "/a") "s2").1 in
  playCount (entry_or_fresh st "/a") < UINT_MAX
  ∧ paths st2 !! "/a"
    = Some (mkPathInfo ({[ 1%positive ]} ∪ {[ 2%positive ]}) 0 (Some 1%positive) "r1").
Proof.
  intros ctx st st1 st2.
  assert (Hlt : playCount (entry_or_fresh st "/a") < UINT_MAX)
    by (vm_compute; reflexivity).
  split; [exact Hlt|].
  destruct (play_then_teardown st 2%positive ctx "s2" Hlt) as (Hp & _).
  - vm_compute. intros [H _]. discriminate H.
  - etransitivity; [exact Hp|]. vm_compute. reflexivity.
Defined.

(** After [on_record], whatever the store was, [pre_record] on that path
    answers 503 to every client. *)
Theorem record_then_pre_record (st : Private) client ctx sessionId client' sessionId' :
  beforeRecord (onRecord st client ctx sessionId).1 client' (uri ctx) sessionId'
  = GST_RTSP_STS_SERVICE_UNAVAILABLE.
Proof.
  unfold beforeRecord.
  assert (isRecording (onRecord st client ctx sessionId).1 client' (abspath (uri ctx))
          = true) as ->; [|done].
  apply isRecording_iff. rewrite onRecord_unfold. cbn [fst paths].
  eexists. rewrite lookup_insert_eq. split; [done|].
  unfold recorded_entry.
  destruct (decide (recorder_marked (entry_or_fresh st (abspath (uri ctx)))))
    as [Hm|Hm]; [exact Hm|].
  left. cbn. eauto.
Qed.

(** A RECORD on a path that is not recording, followed by the TEARDOWN of
    that client with that session id, emits [recorder_connected] then
    [recorder_disconnected], leaves the entry without a recorder and with
    its play count as before, and [pre_record] answers OK again. *)
Theorem record_then_teardown (st : Private) client ctx sessionId :
  let path := abspath (uri ctx) in
  let old := entry_or_fresh st path in
  let st1 := (onRecord st client ctx sessionId).1 in
  let st2 := (onTeardown st1 client (uri ctx) sessionId).1 in
  ¬ (is_Some (recordClient old) ∨ recordSessionId old ≠ "") →
  paths st2 !! path
  = Some (mkPathInfo (refClients old ∪ {[client]}) (playCount old) None "")
  ∧ (onRecord st client ctx sessionId).2 = [recorderConnected (user ctx) path]
  ∧ (onTeardown st1 client (uri ctx) sessionId).2 = [recorderDisconnected path]
  ∧ ∀ client' sessionId',
      beforeRecord st2 client' (uri ctx) sessionId' = GST_RTSP_STS_OK.
Proof.
  intros path old st1 st2 Hm.
  assert (Hent : recorded_entry st client path sessionId
                 = mkPathInfo (refClients old ∪ {[client]}) (playCount old)
                     (Some client) sessionId).
  { unfold recorded_entry. fold old. by rewrite decide_False. }
  assert (Hst1 : paths st1 !! path
                 = Some (mkPathInfo (refClients old ∪ {[client]}) (playCount old)
                           (Some client) sessionId)).
  { subst st1. rewrite onRecord_unfold. cbn [fst paths]. fold path.
    by rewrite lookup_insert_eq, Hent. }
  assert (Hst2 : paths st2 !! path
                 = Some (mkPathInfo (refClients old ∪ {[client]}) (playCount old)
                           None "")).
  { subst st2. rewrite onTeardown_unfold. fold path. rewrite Hst1.
    unfold store_path, set_paths. cbn [paths]. rewrite lookup_insert_eq.
    unfold teardown_entry. cbn [recordClient recordSessionId].
    rewrite bool_decide_eq_true_2 by done.
    by rewrite (proj2 (String.eqb_eq _ _) eq_refl). }
  split; [exact Hst2|]. split; [|split].
  - rewrite onRecord_unfold. cbn [snd]. fold path old.
    by rewrite decide_False.
  - unfold onTeardown. fold path. rewrite Hst1. cbn [recordClient recordSessionId].
    rewrite bool_decide_eq_true_2 by done.
    by rewrite (proj2 (String.eqb_eq _ _) eq_refl).
  - intros client' sessionId'. unfold beforeRecord, isRecording. fold path.
    rewrite Hst2. reflexivity.
Qed.

Lemma record_then_teardown_witness :
  let ctx := mkContext (mkUrl "/a") None in
  let st := (onPlay (initial 0 0) 1%positive ctx "s1").1 in
  let st1 := (onRecord st 2%positive ctx "r2").1 in
  let st2 := (onTeardown st1 2%positive (mkUrl "/a") "r2").1 in
  beforeRecord st1 3%positive (mkUrl "/a") "r3" = GST_RTSP_STS_SERVICE_UNAVAILABLE
  ∧ beforeRecord st2 3%positive (mkUrl "/a") "r3" = GST_RTSP_STS_OK.
Proof.
  intros ctx st st1 st2. split; [vm_compute; reflexivity|].
  destruct (record_then_teardown st 2%positive ctx "r2") as (_ & _ & _ & Hok).
  - vm_compute. intros [[c H]|H]; [discriminate H | by apply H].
  - apply (Hok 3%positive "r3").
Defined.

(** ** The order of [std::set<std::string>] *)

Lemma ascii_compare_refl a : Ascii.compare a a = Eq.
Proof. unfold Ascii.compare. apply N.compare_refl. Qed.

Lemma string_compare_trans s1 : ∀ s2 s3,
  String.compare s1 s2 ≠ Gt → String.compare s2 s3 ≠ Gt →
  String.compare s1 s3 ≠ Gt.
Proof.
  induction s1 as [|a1 s1 IH]; intros [|a2 s2] [|a3 s3]; cbn; try done.
  destruct (Ascii.compare a1 a2) eqn:E12; [| |done];
    destruct (Ascii.compare a2 a3) eqn:E23; try done.
  - apply Ascii.compare_eq_iff in E12, E23. subst.
    rewrite ascii_compare_refl. apply IH.
  - apply Ascii.compare_eq_iff in E12. subst. by rewrite E23.
  - apply Ascii.compare_eq_iff in E23. subst. by rewrite E12.
  - unfold Ascii.compare in *. rewrite N.compare_lt_iff in E12, E23.
    assert (Ascii.N_of_ascii a1 < Ascii.N_of_ascii a3) as ->%N.compare_lt_iff by lia.
    done.
Qed.

Lemma string_le_trans : Transitive string_le.
Proof.
  intros s1 s2 s3. unfold string_le, String.leb. intros H12 H23.
  pose proof (string_compare_trans s1 s2 s3) as H.
  destruct (String.compare s1 s2), (String.compare s2 s3); try done;
    destruct (String.compare s1 s3); try done; exfalso; by apply H.
Qed.

Lemma set_order_strongly_sorted (s : gset string) :
  StronglySorted string_le (set_order s).
Proof.
  apply Sorted_StronglySorted; [apply string_le_trans | apply set_order_sorted].
Qed.

Lemma StronglySorted_sublist {A} (R : relation A) (l k : list A) :
  l `sublist_of` k → StronglySorted R k → StronglySorted R l.
Proof.
  induction 1 as [|x l k Hs IH|x l k Hs IH]; intros Hk; [done| |].
  - apply StronglySorted_inv in Hk as [Hk Hx]. constructor; [by apply IH|].
    rewrite Forall_forall in Hx |- *. intros y Hy.
    apply Hx. by eapply elem_of_sublist.
  - apply StronglySorted_inv in Hk as [Hk _]. by apply IH.
Qed.

Lemma elem_of_concat {A} (x : A) (ls : list (list A)) :
  x ∈ concat ls → ∃ l, x ∈ l ∧ l ∈ ls.
Proof.
  induction ls as [|l ls IH]; cbn; [by intros ?%not_elem_of_nil|].
  intros [H|H]%elem_of_app.
  - exists l. split; [done | left].
  - destruct (IH H) as (l' & ? & ?). exists l'. split; [done | by right].
Qed.

(** ** What [on_client_closed] emits *)

Lemma closeEntry_out client p pi :
  (closeEntry client p pi).1.2 = []
  ∨ ((closeEntry client p pi).1.2 = [lastPlayerDisconnected p] ∧ playCount pi = 1)
  ∨ ((closeEntry client p pi).1.2 = [recorderDisconnected p]
     ∧ is_Some (recordClient pi)).
Proof.
  destruct pi as [rs pc rc sid]. unfold closeEntry.
  cbn [set_refClients set_recorder set_playCount
       refClients playCount recordClient recordSessionId].
  destruct (decide (rs ∖ {[client]} = ∅)) as [He|Hne].
  - destruct rc as [c|]; cbn [fst snd]; [right; right; eauto|].
    destruct (N.eqb_spec pc 1); cbn [fst snd]; [right; left; done | by left].
  - destruct (decide (Some client = rc)) as [<-|Hc].
    + rewrite bool_decide_eq_true_2 by done.
      cbn [set_refClients set_recorder set_playCount
           refClients playCount recordClient recordSessionId].
      destruct (size _ =? 1)%nat; cbn [fst snd]; right; right; eauto.
    + rewrite bool_decide_eq_false_2 by done.
      cbn [set_refClients set_recorder set_playCount
           refClients playCount recordClient recordSessionId].
      destruct (size _ =? 1)%nat, rc as [c|]; cbn [fst snd]; try by left.
      destruct (N.eqb_spec pc 1); cbn [fst snd]; [right; left; done | by left].
Qed.

Lemma closeRef_unvisited client acc a p :
  p ≠ a → (closeRef client acc a).1.1 !! p = acc.1.1 !! p.
Proof.
  intros Hne. destruct acc as [[ps out] bad].
  rewrite closeRef_lookup. by rewrite decide_False.
Qed.

Lemma closeRef_lists client ps out bad a :
  (closeRef client (ps, out, bad) a).1.2 = (out ++ close_notes client ps a)%list
  ∧ (closeRef client (ps, out, bad) a).2 = (bad ++ close_failures client ps a)%list.
Proof.
  unfold closeRef, close_notes, close_failures. destruct (ps !! a) as [pi|].
  - by destruct (closeEntry client a pi) as [[entry out'] bad'].
  - cbn. by rewrite !app_nil_r.
Qed.

(** The loop emits, path after path in the order of the visit, what each
    turn emits on the entry the store had before the loop. *)
Lemma foldl_closeRef_lists client l : ∀ acc,
  NoDup l →
  (foldl (closeRef client) acc l).1.2
  = (acc.1.2 ++ concat (close_notes client acc.1.1 <$> l))%list
  ∧ (foldl (closeRef client) acc l).2
    = (acc.2 ++ concat (close_failures client acc.1.1 <$> l))%list.
Proof.
  induction l as [|a l IH]; intros [[ps out] bad] Hnd.
  - cbn. by rewrite !app_nil_r.
  - apply NoDup_cons in Hnd as [Ha Hnd]. cbn [foldl].
    destruct (IH (closeRef client (ps, out, bad) a) Hnd) as [-> ->].
    destruct (closeRef_lists client ps out bad a) as [-> ->].
    assert (Hn : close_notes client (closeRef client (ps, out, bad) a).1.1 <$> l
                 = close_notes client ps <$> l).
    { apply Forall_fmap_ext_1, Forall_forall. intros p Hp.
      unfold close_notes. rewrite closeRef_unvisited; [done|].
      intros ->. done. }
    assert (Hf : close_failures client (closeRef client (ps, out, bad) a).1.1 <$> l
                 = close_failures client ps <$> l).
    { apply Forall_fmap_ext_1, Forall_forall. intros p Hp.
      unfold close_failures. rewrite closeRef_unvisited; [done|].
      intros ->. done. }
    rewrite Hn, Hf. cbn [fst snd fmap list_fmap concat]. by rewrite <- !app_assoc.
Qed.

Lemma onClientClosed_lists st client :
  (onClientClosed st client).1.2
  = concat (close_notes client (paths st) <$> set_order (ref_paths_of st client))
  ∧ (onClientClosed st client).2
    = concat (close_failures client (paths st) <$> set_order (ref_paths_of st client)).
Proof.
  unfold onClientClosed, ref_paths_of.
  destruct (clients st !! client) as [ci|].
  - pose proof (foldl_closeRef_lists client (set_order (refPaths ci))
                  (paths st, [], []) (set_order_NoDup _)) as [Ho Hb].
    destruct (foldl (closeRef client) (paths st, [], []) (set_order (refPaths ci)))
      as [[ps out] bad].
    cbn [fst snd] in *. by subst.
  - unfold set_order. by rewrite elements_empty.
Qed.

Lemma close_notes_paths client ps l :
  note_path <$> concat (close_notes client ps <$> l) `sublist_of` l.
Proof.
  induction l as [|a l IH]; [done|].
  cbn [fmap list_fmap concat]. rewrite fmap_app.
  change (a :: l) with ([a] ++ l)%list. apply sublist_app; [|exact IH].
  unfold close_notes. destruct (ps !! a) as [pi|]; [|apply sublist_nil_l].
  destruct (closeEntry_out client a pi) as [->|[[-> _]|[-> _]]];
    [apply sublist_nil_l | done | done].
Qed.

(** The notifications of one [on_client_closed] follow the paths the
    client references in increasing order, at most one notification per
    path; each is a disconnect notification about a path that had an
    entry, and a [last_player_disconnected] is only emitted for an entry
    whose play count was 1. *)
Theorem onClientClosed_notifications (st : Private) client :
  let out := (onClientClosed st client).1.2 in
  note_path <$> out `sublist_of` set_order (ref_paths_of st client)
  ∧ StronglySorted string_le (note_path <$> out)
  ∧ NoDup (note_path <$> out)
  ∧ Forall (λ n, is_disconnect n = true
                 ∧ note_path n ∈ ref_paths_of st client
                 ∧ ∃ pi, paths st !! note_path n = Some pi
                         ∧ (n = lastPlayerDisconnected (note_path n)
                            → playCount pi = 1)
                         ∧ (n = recorderDisconnected (note_path n)
                            → is_Some (recordClient pi))) out.
Proof.
  intros out. subst out.
  destruct (onClientClosed_lists st client) as [-> _].
  pose proof (close_notes_paths client (paths st)
                (set_order (ref_paths_of st client))) as Hsub.
  split; [exact Hsub|]. split; [|split].
  - eapply StronglySorted_sublist; [exact Hsub|]. apply set_order_strongly_sorted.
  - eapply sublist_NoDup; [|exact Hsub]. apply set_order_NoDup.
  - apply Forall_forall. intros n Hn.
    apply elem_of_concat in Hn as (block & Hn & Hblock).
    apply list_elem_of_fmap in Hblock as (p & -> & Hp).
    apply set_order_elem in Hp.
    unfold close_notes in Hn. destruct (paths st !! p) as [pi|] eqn:Hpi.
    2:{ by apply not_elem_of_nil in Hn. }
    destruct (closeEntry_out client p pi) as [He|[[He Hc]|[He Hr]]];
      rewrite He in Hn.
    + by apply not_elem_of_nil in Hn.
    + apply list_elem_of_singleton in Hn as ->. cbn.
      repeat split; [done|]. exists pi. repeat split; done.
    + apply list_elem_of_singleton in Hn as ->. cbn.
      repeat split; [done|]. exists pi. repeat split; done.
Qed.

(** ** What [on_client_closed] leaves *)

Lemma closeEntry_play_count client p pi :
  match (closeEntry client p pi).1.1 with
  | Some pi' =>
      playCount pi' = playCount pi
      ∨ (playCount pi = 1 ∧ playCount pi' = 0
         ∧ size (refClients pi') = 1%nat
         ∧ is_Some (recordClient pi'))
  | None => True
  end.
Proof.
  destruct pi as [rs pc rc sid]. unfold closeEntry.
  cbn [set_refClients set_recorder set_playCount
       refClients playCount recordClient recordSessionId].
  destruct (decide (rs ∖ {[client]} = ∅)) as [He|Hne].
  - destruct rc; [done|]. by destruct (pc =? 1).
  - destruct (decide (Some client = rc)) as [Hc|Hc].
    + rewrite bool_decide_eq_true_2 by done.
      cbn [set_refClients set_recorder set_playCount
           refClients playCount recordClient recordSessionId].
      destruct (size _ =? 1)%nat; cbn; by left.
    + rewrite bool_decide_eq_false_2 by done.
      cbn [set_refClients set_recorder set_playCount
           refClients playCount recordClient recordSessionId].
      destruct (Nat.eqb_spec (size (rs ∖ {[client]})) 1) as [Hs|Hs];
        [|cbn; by left].
      destruct rc as [c|]; [|cbn; by left].
      destruct (N.eqb_spec pc 1) as [->|H1]; cbn; [|by left].
      right. repeat split; [done | eauto].
Qed.

(** [on_client_closed] never creates an entry, and it changes the play
    count of an entry it leaves in one case only: from 1 to 0, when a
    single client still references the path and it has a recorder.  A play
    count of 2 or more, or the play count of a path without a recorder
    that other clients still reference, stays as it is. *)
Theorem onClientClosed_play_count (st : Private) client p pi' :
  paths (onClientClosed st client).1.1 !! p = Some pi' →
  ∃ pi, paths st !! p = Some pi
        ∧ (playCount pi' = playCount pi
           ∨ (playCount pi = 1 ∧ playCount pi' = 0
              ∧ size (refClients pi') = 1%nat
              ∧ is_Some (recordClient pi'))).
Proof.
  destruct (clients st !! client) as [ci|] eqn:Hc.
  - destruct (onClientClosed_known st client ci Hc) as (_ & _ & _ & Hl).
    rewrite Hl. destruct (decide (p ∈ refPaths ci)); [|eauto].
    destruct (paths st !! p) as [pi|]; [|done]. cbn. intros Hpi'.
    exists pi. split; [done|].
    pose proof (closeEntry_play_count client p pi) as He. by rewrite Hpi' in He.
  - unfold onClientClosed. rewrite Hc. cbn. eauto.
Qed.

Lemma onClientClosed_play_count_witness :
  let ctx := mkContext (mkUrl "/a") None in
  let st := state_after (initial 0 0)
              [EvPlay 1%positive ctx "s1"; EvPlay 2%positive ctx "s2"] in
  let pi' := mkPathInfo {[ 2%positive ]} 2 None "" in
  paths (onClientClosed st 1%positive).1.1 !! "/a" = Some pi'
  ∧ ∃ pi, paths st !! "/a" = Some pi ∧ playCount pi = 2.
Proof.
  intros ctx st pi'.
  assert (Hl : paths (onClientClosed st 1%positive).1.1 !! "/a" = Some pi')
    by (vm_compute; reflexivity).
  split; [exact Hl|].
  destruct (onClientClosed_play_count st 1%positive "/a" pi' Hl)
    as (pi & Hpi & [Hsame|(_ & Hzero & _)]).
  - exists pi. split; [exact Hpi|]. by rewrite <- Hsame.
  - discriminate Hzero.
Defined.

Lemma onClientClosed_clients st client :
  clients (onClientClosed st client).1.1 = delete client (clients st).
Proof.
  destruct (clients st !! client) as [ci|] eqn:Hc.
  - by destruct (onClientClosed_known st client ci Hc).
  - unfold onClientClosed. rewrite Hc. cbn. by rewrite delete_id.
Qed.

Lemma onClientClosed_paths st client p :
  paths (onClientClosed st client).1.1 !! p
  = if decide (p ∈ ref_paths_of st client)
    then paths st !! p ≫= λ pi, (closeEntry client p pi).1.1
    else paths st !! p.
Proof.
  unfold ref_paths_of. destruct (clients st !! client) as [ci|] eqn:Hc.
  - by destruct (onClientClosed_known st client ci Hc) as (_ & _ & _ & Hl).
  - unfold onClientClosed. rewrite Hc. cbn.
    rewrite decide_False; [done | apply not_elem_of_empty].
Qed.

(** [on_client_closed] erases the entry of the client and nothing else of
    [clients]; it leaves alone every path the client does not reference,
    creates no entry, adds no reference, and removes the client from the
    references of every path it referenced; closing the same client again
    changes nothing and emits nothing. *)
Theorem onClientClosed_frame (st : Private) client :
  let st' := (onClientClosed st client).1.1 in
  clients st' = delete client (clients st)
  ∧ (∀ p, p ∉ ref_paths_of st client → paths st' !! p = paths st !! p)
  ∧ (∀ p, is_Some (paths st' !! p) → is_Some (paths st !! p))
  ∧ (∀ p, ref_clients_of st' p ⊆ ref_clients_of st p)
  ∧ (∀ p, p ∈ ref_paths_of st client → client ∉ ref_clients_of st' p)
  ∧ onClientClosed st' client = (st', [], []).
Proof.
  intros st'. subst st'.
  assert (Hrefs : ∀ p, ref_clients_of (onClientClosed st client).1.1 p
                       = if decide (p ∈ ref_paths_of st client)
                         then ref_clients_of st p ∖ {[client]}
                         else ref_clients_of st p).
  { intros p. unfold ref_clients_of. rewrite onClientClosed_paths.
    destruct (decide (p ∈ ref_paths_of st client)); [|done].
    destruct (paths st !! p) as [pi|]; cbn; [|set_solver].
    pose proof (closeEntry_entry client p pi) as He.
    destruct ((closeEntry client p pi).1.1); [by destruct He | done]. }
  split; [apply onClientClosed_clients|]. split; [|split; [|split; [|split]]].
  - intros p Hp. rewrite onClientClosed_paths. by rewrite decide_False.
  - intros p. rewrite onClientClosed_paths.
    destruct (decide _); [|done]. destruct (paths st !! p); [eauto|].
    cbn. by intros [? ?].
  - intros p. rewrite Hrefs. destruct (decide _); set_solver.
  - intros p Hp. rewrite Hrefs, decide_True by done. set_solver.
  - unfold onClientClosed at 1.
    by rewrite onClientClosed_clients, lookup_delete_eq.
Qed.

Lemma onClientClosed_frame_witness :
  let ctx := mkContext (mkUrl "/a") None in
  let st := state_after (initial 0 0)
              [EvPlay 1%positive ctx "s1"; EvRecord 2%positive ctx "r2"] in
  let st' := (onClientClosed st 1%positive).1.1 in
  "/a" ∈ ref_paths_of st 1%positive
  ∧ ref_clients_of st "/a" = {[ 1%positive; 2%positive ]}
  ∧ 1%positive ∉ ref_clients_of st' "/a".
Proof.
  intros ctx st st'.
  assert (Hin : "/a" ∈ ref_paths_of st 1%positive).
  { assert (ref_paths_of st 1%positive = {[ "/a" ]}) as ->
      by (vm_compute; reflexivity).
    by apply elem_of_singleton. }
  split; [exact Hin|]. split; [vm_compute; reflexivity|].
  destruct (onClientClosed_frame st 1%positive) as (_ & _ & _ & _ & Hout & _).
  exact (Hout "/a" Hin).
Defined.

Lemma state_after_app st evs1 evs2 :
  state_after st (evs1 ++ evs2) = state_after (state_after st evs1) evs2.
Proof.
  revert st. induction evs1 as [|e evs1 IH]; intros st; [done|].
  cbn [app]. by rewrite !state_after_cons, IH.
Qed.

(** Once a connection is closed nothing in the store refers to it: in a
    store reached from the empty one by a run that ends with the close of
    a client, the client has no entry, no path lists it among its
    references, and no path has it as recorder. *)
Theorem closed_client_forgotten maxPaths maxClients (evs : list Event) client :
  let st := state_after (initial maxPaths maxClients) (evs ++ [EvClosed client]) in
  clients st !! client = None
  ∧ (∀ p, client ∉ ref_clients_of st p)
  ∧ (∀ p pi, paths st !! p = Some pi → recordClient pi ≠ Some client).
Proof.
  intros st.
  assert (Hc : clients st !! client = None).
  { subst st. rewrite state_after_app, state_after_cons, state_after_nil.
    cbn [step]. by rewrite onClientClosed_clients, lookup_delete_eq. }
  assert (Hrefs : refs_consistent st)
    by apply run_refs_consistent, initial_refs_consistent.
  assert (Hok : entries_ok st).
  { apply run_entries_ok. intros q qi Hq. by apply initial_no_entry in Hq. }
  assert (Hno : ∀ p, client ∉ ref_clients_of st p).
  { intros p Hin. apply Hrefs in Hin. unfold ref_paths_of in Hin.
    rewrite Hc in Hin. by apply not_elem_of_empty in Hin. }
  split; [exact Hc|]. split; [exact Hno|].
  intros p pi Hl Hr. destruct (Hok _ _ Hl) as (_ & _ & Hin).
  apply (Hno p). unfold ref_clients_of. rewrite Hl. by apply Hin.
Qed.

Lemma closed_client_forgotten_witness :
  let ctx := mkContext (mkUrl "/a") None in
  let evs := [EvRecord 1%positive ctx "r1"; EvPlay 2%positive ctx "s2"] in
  let st := state_after (initial 0 0) (evs ++ [EvClosed 1%positive]) in
  let pi := mkPathInfo {[ 2%positive ]} 1 None "" in
  paths st !! "/a" = Some pi ∧ recordClient pi ≠ Some 1%positive.
Proof.
  intros ctx evs st pi.
  assert (Hl : paths st !! "/a" = Some pi) by (vm_compute; reflexivity).
  split; [exact Hl|].
  destruct (closed_client_forgotten 0 0 evs 1%positive) as (_ & _ & Hr).
  exact (Hr "/a" pi Hl).
Defined.

(** ** The assertion on the recorder *)

Lemma closeEntry_failures client p pi :
  (closeEntry client p pi).2 = []
  ∨ (closeEntry client p pi).2 = [lastRefPlayCount p (playCount pi)]
  ∨ (closeEntry client p pi).2 = [recorderLeftPlayCount p (playCount pi)]
  ∨ ((closeEntry client p pi).2 = [lastRefIsRecorder p]
     ∧ refClients pi ∖ {[client]} = ∅
     ∧ ∃ rc, recordClient pi = Some rc ∧ rc ≠ client).
Proof.
  destruct pi as [rs pc rc sid]. unfold closeEntry.
  cbn [set_refClients set_recorder set_playCount
       refClients playCount recordClient recordSessionId].
  destruct (decide (rs ∖ {[client]} = ∅)) as [He|Hne].
  - destruct rc as [c|]; cbn [fst snd].
    + destruct (decide (c = client)); [by left|]. do 3 right. eauto.
    + destruct (pc =? 1), ((pc =? 0) || _); cbn [fst snd]; auto.
  - destruct (decide (Some client = rc)) as [<-|Hc].
    + rewrite bool_decide_eq_true_2 by done.
      cbn [set_refClients set_recorder set_playCount
           refClients playCount recordClient recordSessionId].
      destruct (size _ =? 1)%nat; cbn [fst snd]; by left.
    + rewrite bool_decide_eq_false_2 by done.
      cbn [set_refClients set_recorder set_playCount
           refClients playCount recordClient recordSessionId].
      destruct (size _ =? 1)%nat, rc as [c|]; cbn [fst snd]; try by left.
      destruct (pc =? 1), ((pc =? 0) || _); cbn [fst snd]; auto.
Qed.

Lemma closeEntry_recorder_assert client p pi q :
  entry_ok pi → lastRefIsRecorder q ∉ (closeEntry client p pi).2.
Proof.
  intros (_ & _ & Hin).
  destruct (closeEntry_failures client p pi)
    as [->|[->|[->|(-> & He & rc & Hrc & Hne)]]].
  - apply not_elem_of_nil.
  - by intros ?%list_elem_of_singleton.
  - by intros ?%list_elem_of_singleton.
  - exfalso. specialize (Hin rc Hrc). set_solver.
Qed.

Lemma onClientClosed_recorder_assert st client q :
  entries_ok st → lastRefIsRecorder q ∉ (onClientClosed st client).2.
Proof.
  intros Hok. destruct (onClientClosed_lists st client) as [_ ->].
  intros (block & Hq & Hblock)%elem_of_concat.
  apply list_elem_of_fmap in Hblock as (p & -> & _).
  unfold close_failures in Hq. destruct (paths st !! p) as [pi|] eqn:Hpi.
  - by apply (closeEntry_recorder_assert client p pi q (Hok _ _ Hpi)).
  - by apply not_elem_of_nil in Hq.
Qed.

Lemma failed_cons st e evs :
  failed st (e :: evs) = ((step st e).2 ++ failed (step st e).1.1 evs)%list.
Proof.
  unfold failed. cbn [run].
  destruct (step st e) as [[st1 out1] bad1]. cbn [fst snd].
  by destruct (run st1 evs) as [[st2 out2] bad2].
Qed.

Lemma step_failed st e : is_closed e = false → (step st e).2 = [].
Proof.
  intros Hn.
  destruct e as [c|c u s|c x s|c u s|c x s|c u s|c]; cbn [step];
    [done | done | | done | | | done].
  - by destruct (onPlay st c x s).
  - by destruct (onRecord st c x s).
  - by destruct (onTeardown st c u s).
Qed.

Lemma run_recorder_assert evs q : ∀ st,
  entries_ok st → lastRefIsRecorder q ∉ failed st evs.
Proof.
  induction evs as [|e evs IH]; intros st Hok; [apply not_elem_of_nil|].
  rewrite failed_cons. intros [H|H]%elem_of_app.
  - destruct (is_closed e) eqn:Hcl.
    + destruct e; try done. by apply (onClientClosed_recorder_assert st client q).
    + rewrite step_failed in H by done. by apply not_elem_of_nil in H.
  - apply (IH (step st e).1.1); [by apply step_entries_ok | exact H].
Qed.

(** The assertion [recordClient == client] of line 435 holds in every run
    from the empty store: when the last reference of a path goes and the
    path has a recorder, the recorder is the client being closed. *)
Theorem recorder_assertion_holds maxPaths maxClients (evs : list Event) q :
  lastRefIsRecorder q ∉ failed (initial maxPaths maxClients) evs.
Proof.
  apply run_recorder_assert. intros p pi Hp. by apply initial_no_entry in Hp.
Qed.

(** ** A session on a fresh path that ends with the connection *)

Lemma set_order_singleton (p : string) : set_order {[ p ]} = [p].
Proof. unfold set_order. by rewrite elements_singleton. Qed.

Lemma private_eta st :
  mkPrivate (maxPathsCount st) (maxClientsPerPath st) (clients st) (paths st) = st.
Proof. by destruct st. Qed.

Lemma fresh_entry_closed st client path pi out bad :
  clients st !! client = None →
  paths st !! path = None →
  refClients pi = {[client]} →
  closeEntry client path pi = (None, out, bad) →
  onClientClosed
    (mkPrivate (maxPathsCount st) (maxClientsPerPath st)
       (<[client := mkClientInfo (ref_paths_of st client ∪ {[path]})]> (clients st))
       (<[path := pi]> (paths st))) client
  = (st, out, bad).
Proof.
  intros Hc Hp Hr He. unfold onClientClosed. cbn [clients paths].
  rewrite lookup_insert_eq. cbn [refPaths].
  assert (ref_paths_of st client ∪ {[path]} = {[path]}) as ->.
  { unfold ref_paths_of. rewrite Hc. set_solver. }
  rewrite set_order_singleton. cbn [foldl closeRef].
  rewrite lookup_insert_eq, He. cbn [app maxPathsCount maxClientsPerPath].
  rewrite !delete_insert_id by done. by rewrite private_eta.
Qed.

(** A client without an entry that plays on a path without an entry and
    then vanishes leaves the store exactly as it was, having emitted
    [first_player_connected] then [last_player_disconnected]; the same
    with a RECORD emits [recorder_connected] then
    [recorder_disconnected]. *)
Theorem fresh_session_then_close (st : Private) client ctx sessionId :
  let path := abspath (uri ctx) in
  clients st !! client = None →
  paths st !! path = None →
  run st [EvPlay client ctx sessionId; EvClosed client]
  = (st, [firstPlayerConnected (user ctx) path; lastPlayerDisconnected path], [])
  ∧ run st [EvRecord client ctx sessionId; EvClosed client]
    = (st, [recorderConnected (user ctx) path; recorderDisconnected path], []).
Proof.
  intros path Hc Hp.
  assert (He : entry_or_fresh st path = mkPathInfo ∅ 0 None "").
  { unfold entry_or_fresh. by rewrite Hp. }
  split.
  - cbn [run step]. rewrite onPlay_unfold. fold path.
    assert (Hent : played_entry st client path = mkPathInfo {[client]} 1 None "").
    { unfold played_entry. rewrite He. cbn. f_equal. set_solver. }
    rewrite Hent.
    rewrite (fresh_entry_closed st client path _ [lastPlayerDisconnected path] []);
      try done.
    unfold closeEntry. cbn [set_refClients refClients playCount recordClient].
    destruct (decide ({[client]} ∖ {[client]} = (∅ : gset positive)))
      as [_|Hne]; [done|]. exfalso. set_solver.
  - cbn [run step]. rewrite onRecord_unfold. fold path.
    assert (Hent : recorded_entry st client path sessionId
                   = mkPathInfo {[client]} 0 (Some client) sessionId).
    { unfold recorded_entry. rewrite He.
      rewrite decide_False by (cbn; intros [[? ?]|?]; done).
      cbn. f_equal. set_solver. }
    rewrite Hent. rewrite He.
    rewrite decide_False by (cbn; intros [[? ?]|?]; done).
    rewrite (fresh_entry_closed st client path _ [recorderDisconnected path] []);
      try done.
    unfold closeEntry. cbn [set_refClients refClients playCount recordClient].
    destruct (decide ({[client]} ∖ {[client]} = (∅ : gset positive)))
      as [_|Hne]; [|exfalso; set_solver].
    by rewrite decide_True.
Qed.

Lemma fresh_session_then_close_witness :
  let ctx := mkContext (mkUrl "/b") (Some "guest") in
  let st := state_after (initial 0 0)
              [EvRecord 1%positive (mkContext (mkUrl "/a") None) "r1"] in
  clients st !! 2%positive = None
  ∧ paths st !! "/b" = None
  ∧ run st [EvPlay 2%positive ctx "s2"; EvClosed 2%positive]
    = (st, [firstPlayerConnected "guest" "/b"; lastPlayerDisconnected "/b"], []).
Proof.
  intros ctx st.
  assert (Hc : clients st !! 2%positive = None) by (vm_compute; reflexivity).
  assert (Hp : paths st !! "/b" = None) by (vm_compute; reflexivity).
  split; [exact Hc|]. split; [exact Hp|].
  exact (proj1 (fresh_session_then_close st 2%positive ctx "s2" Hc Hp)).
Defined.

(** ** Player notifications in runs without closes *)

Lemma playing_entry_or_fresh st p :
  playing st p = (0 <? playCount (entry_or_fresh st p)).
Proof. unfold playing, entry_or_fresh. by destruct (paths st !! p). Qed.

Lemma player_log_app p l1 l2 :
  player_log p (l1 ++ l2) = (player_log p l1 ++ player_log p l2)%list.
Proof. apply omap_app. Qed.

Lemma player_log_first p u q :
  player_log p [firstPlayerConnected u q] = if decide (q = p) then [true] else [].
Proof. unfold player_log. cbn. by destruct (decide (q = p)). Qed.

Lemma player_log_last p q :
  player_log p [lastPlayerDisconnected q] = if decide (q = p) then [false] else [].
Proof. unfold player_log. cbn. by destruct (decide (q = p)). Qed.

Lemma onPlay_player st client ctx sessionId p :
  playCount (entry_or_fresh st (abspath (uri ctx))) < UINT_MAX →
  alternates (playing st p) (player_log p (onPlay st client ctx sessionId).2)
  = Some (playing (onPlay st client ctx sessionId).1 p).
Proof.
  intros Hlt. rewrite onPlay_unfold. cbn [fst snd].
  set (path := abspath (uri ctx)) in *. set (n := playCount (entry_or_fresh st path)) in *.
  assert (Hn : playCount (played_entry st client path) = n + 1).
  { unfold played_entry. cbn [playCount]. fold n. unfold u32_incr.
    destruct (N.eqb_spec n UINT_MAX); [lia|done]. }
  rewrite Hn. unfold playing at 2. cbn [paths].
  destruct (decide (p = path)) as [->|Hne].
  - rewrite lookup_insert_eq, Hn, playing_entry_or_fresh. fold n.
    destruct (N.eqb_spec (n + 1) 1) as [H1|H1].
    + rewrite player_log_first, decide_True by done.
      assert (n = 0) as -> by lia. reflexivity.
    + cbn. f_equal. destruct (N.ltb_spec 0 n), (N.ltb_spec 0 (n + 1)); (done || lia).
  - rewrite lookup_insert_ne by done.
    destruct (n + 1 =? 1); [|done].
    rewrite player_log_first. by rewrite decide_False by done.
Qed.

Lemma onRecord_player st client ctx sessionId p :
  alternates (playing st p) (player_log p (onRecord st client ctx sessionId).2)
  = Some (playing (onRecord st client ctx sessionId).1 p).
Proof.
  rewrite onRecord_unfold. cbn [fst snd].
  assert (player_log p
            (if decide (recorder_marked (entry_or_fresh st (abspath (uri ctx))))
             then [] else [recorderConnected (user ctx) (abspath (uri ctx))])
          = []) as -> by (by destruct (decide _)).
  cbn [alternates]. f_equal. unfold playing at 2. cbn [paths].
  destruct (decide (p = abspath (uri ctx))) as [->|Hne].
  - rewrite lookup_insert_eq, playing_entry_or_fresh.
    unfold recorded_entry. by destruct (decide _).
  - by rewrite lookup_insert_ne.
Qed.

Lemma onTeardown_player st client url sessionId p :
  alternates (playing st p) (player_log p (onTeardown st client url sessionId).2)
  = Some (playing (onTeardown st client url sessionId).1 p).
Proof.
  unfold onTeardown.
  destruct (paths st !! abspath url) as [pi|] eqn:Hp; [|done].
  destruct (bool_decide (Some client = recordClient pi)
            && String.eqb sessionId (recordSessionId pi)).
  - cbn [fst snd alternates player_log omap list_omap player_mark]. f_equal.
    unfold playing, store_path, set_paths. cbn [paths].
    destruct (decide (abspath url = p)) as [<-|Hne].
    + by rewrite Hp, lookup_insert_eq.
    + by rewrite lookup_insert_ne.
  - destruct (N.ltb_spec 0 (playCount pi)) as [Hpos|Hzero]; cbn [fst snd]; [|done].
    unfold set_playCount. cbn [playCount]. rewrite u32_decr_pos by done.
    unfold playing, store_path, set_paths. cbn [paths].
    destruct (decide (abspath url = p)) as [<-|Hne].
    + rewrite Hp, lookup_insert_eq. cbn [playCount].
      rewrite (proj2 (N.ltb_lt _ _) Hpos).
      destruct (N.eqb_spec (playCount pi - 1) 0) as [H0|H0].
      * rewrite player_log_last, decide_True by done. by rewrite H0.
      * cbn. f_equal. symmetry. apply N.ltb_lt. lia.
    + rewrite lookup_insert_ne by done.
      destruct (playCount pi - 1 =? 0); [|done].
      rewrite player_log_last. by rewrite decide_False by done.
Qed.

Lemma entry_or_fresh_below k st p :
  plays_below k st → playCount (entry_or_fresh st p) ≤ k.
Proof.
  intros H. destruct (entry_or_fresh_cases st p) as [Hl|[_ ->]].
  - by apply (H _ _ Hl).
  - cbn. lia.
Qed.

Lemma step_player st e p k :
  is_closed e = false → plays_below k st → k < UINT_MAX →
  alternates (playing st p) (player_log p (step st e).1.2)
  = Some (playing (step st e).1.1 p).
Proof.
  intros Hn Hb Hk.
  destruct e as [c|c u s|c x s|c u s|c x s|c u s|c]; cbn [step];
    [done | done | | done | | | done].
  - pose proof (onPlay_player st c x s p) as H.
    pose proof (entry_or_fresh_below k st (abspath (uri x)) Hb).
    destruct (onPlay st c x s). apply H. lia.
  - pose proof (onRecord_player st c x s p).
    by destruct (onRecord st c x s).
  - pose proof (onTeardown_player st c u s p).
    by destruct (onTeardown st c u s).
Qed.

Lemma step_plays_below st e k :
  is_closed e = false → plays_below k st → plays_below (k + 1) (step st e).1.1.
Proof.
  intros Hn Hb p pi'.
  destruct e as [c|c u s|c x s|c u s|c x s|c u s|c]; cbn [step];
    try done; try (intros Hl; specialize (Hb _ _ Hl); lia).
  - pose proof (onPlay_unfold st c x s) as Hu.
    destruct (onPlay st c x s) as [st' out]. injection Hu as -> _. cbn [fst paths].
    destruct (decide (p = abspath (uri x))) as [->|Hne].
    + rewrite lookup_insert_eq. intros [= <-]. unfold played_entry. cbn [playCount].
      pose proof (u32_incr_le (playCount (entry_or_fresh st (abspath (uri x))))).
      pose proof (entry_or_fresh_below k st (abspath (uri x)) Hb). lia.
    + rewrite lookup_insert_ne by done. intros Hl. specialize (Hb _ _ Hl). lia.
  - pose proof (onRecord_unfold st c x s) as Hu.
    destruct (onRecord st c x s) as [st' out]. injection Hu as -> _. cbn [fst paths].
    destruct (decide (p = abspath (uri x))) as [->|Hne].
    + rewrite lookup_insert_eq. intros [= <-].
      assert (playCount (recorded_entry st c (abspath (uri x)) s)
              = playCount (entry_or_fresh st (abspath (uri x)))) as ->.
      { unfold recorded_entry. by destruct (decide _). }
      pose proof (entry_or_fresh_below k st (abspath (uri x)) Hb). lia.
    + rewrite lookup_insert_ne by done. intros Hl. specialize (Hb _ _ Hl). lia.
  - pose proof (onTeardown_entry st c u s p pi') as Hu.
    destruct (onTeardown st c u s) as [st' out]. cbn [fst] in *.
    intros Hl. destruct (Hu Hl) as (pi & Hpi & _ & Hle & _).
    specialize (Hb _ _ Hpi). lia.
Qed.

Lemma run_player evs p : ∀ st k,
  forallb (λ e, negb (is_closed e)) evs = true →
  plays_below k st →
  k + N.of_nat (length evs) ≤ UINT_MAX →
  alternates (playing st p) (player_log p (emitted st evs))
  = Some (playing (state_after st evs) p).
Proof.
  induction evs as [|e evs IH]; intros st k Hn Hb Hk; [done|].
  cbn in Hn. apply andb_true_iff in Hn as [He%negb_true_iff Hn].
  rewrite emitted_cons, state_after_cons, player_log_app, alternates_app.
  rewrite (step_player st e p k) by (done || (cbn [length] in Hk; lia)).
  cbn [mbind option_bind]. apply (IH _ (k + 1)); [done | |].
  - by apply step_plays_below.
  - cbn [length] in Hk. lia.
Qed.

(** In a run from the empty store without connection closes (sessions end
    with TEARDOWN) and short enough for no counter to wrap, the player
    notifications about a path alternate, starting with
    [first_player_connected]; there are as many of either kind when the
    run ends with a play count of 0 on the path, and one
    [first_player_connected] more otherwise. *)
Theorem player_notifications_alternate maxPaths maxClients (evs : list Event) p :
  forallb (λ e, negb (is_closed e)) evs = true →
  N.of_nat (length evs) ≤ UINT_MAX →
  let st := state_after (initial maxPaths maxClients) evs in
  let log := player_log p (emitted (initial maxPaths maxClients) evs) in
  alternates false log = Some (playing st p)
  ∧ count_mark true log = (count_mark false log + Nat.b2n (playing st p))%nat.
Proof.
  intros Hn Hlen st log.
  assert (Halt : alternates false log = Some (playing st p)).
  { subst st log.
    rewrite <- (run_player evs p (initial maxPaths maxClients) 0 Hn).
    - unfold playing. by rewrite paths_initial, lookup_empty.
    - intros q qi Hq. by apply initial_no_entry in Hq.
    - lia. }
  split; [done|].
  pose proof (alternates_counts _ _ _ Halt) as Hc. cbn in Hc. lia.
Qed.

Lemma player_notifications_alternate_witness :
  let a := mkUrl "/a" in
  let ctx := mkContext a None in
  let evs := [EvPlay 1%positive ctx "s1"; EvPlay 2%positive ctx "s2";
              EvTeardown 1%positive a "s1"; EvTeardown 2%positive a "s2";
              EvPlay 1%positive ctx "s3"; EvRecord 2%positive ctx "r2";
              EvTeardown 1%positive a "s3"] in
  let log := player_log "/a" (emitted (initial 0 0) evs) in
  forallb (λ e, negb (is_closed e)) evs = true
  ∧ N.of_nat (length evs) ≤ UINT_MAX
  ∧ log = [true; false; true; false]
  ∧ alternates false log = Some (playing (state_after (initial 0 0) evs) "/a").
Proof.
  intros a ctx evs log.
  assert (Hn : forallb (λ e, negb (is_closed e)) evs = true) by reflexivity.
  assert (Hlen : N.of_nat (length evs) ≤ UINT_MAX) by (vm_compute; discriminate).
  split; [exact Hn|]. split; [exact Hlen|]. split; [vm_compute; reflexivity|].
  exact (proj1 (player_notifications_alternate 0 0 evs "/a" Hn Hlen)).
Defined.

(** ** References resolve *)

Lemma step_clients_referencing st e :
  clients_referencing st → clients_referencing (step st e).1.1.
Proof.
  intros H c ci.
  destruct e as [c0|c0 u s|c0 x s|c0 u s|c0 x s|c0 u s|c0]; cbn [step];
    try apply H.
  - pose proof (onPlay_unfold st c0 x s) as Hu.
    destruct (onPlay st c0 x s) as [st' out]. injection Hu as -> _.
    cbn [fst clients]. destruct (decide (c = c0)) as [->|Hne].
    + rewrite lookup_insert_eq. intros [= <-]. cbn. set_solver.
    + rewrite lookup_insert_ne by done. apply H.
  - pose proof (onRecord_unfold st c0 x s) as Hu.
    destruct (onRecord st c0 x s) as [st' out]. injection Hu as -> _.
    cbn [fst clients]. destruct (decide (c = c0)) as [->|Hne].
    + rewrite lookup_insert_eq. intros [= <-]. cbn. set_solver.
    + rewrite lookup_insert_ne by done. apply H.
  - destruct (onTeardown_views st c0 u s) as (Hc & _).
    destruct (onTeardown st c0 u s) as [st' out]. cbn [fst] in *.
    rewrite Hc. apply H.
  - rewrite onClientClosed_clients.
    destruct (decide (c = c0)) as [->|Hne].
    + by rewrite lookup_delete_eq.
    + rewrite lookup_delete_ne by done. apply H.
Qed.

Lemma run_clients_referencing evs : ∀ st,
  clients_referencing st → clients_referencing (state_after st evs).
Proof.
  induction evs as [|e evs IH]; intros st H; [done|].
  rewrite state_after_cons. by apply IH, step_clients_referencing.
Qed.

(** In a store reached from the empty one every client entry references
    at least one path, and every path it references has an entry that
    lists the client: the lookup of a referenced path in
    [on_client_closed] never fails. *)
Theorem references_resolve maxPaths maxClients (evs : list Event) c ci :
  let st := state_after (initial maxPaths maxClients) evs in
  clients st !! c = Some ci →
  refPaths ci ≠ ∅
  ∧ ∀ p, p ∈ refPaths ci → ∃ pi, paths st !! p = Some pi ∧ c ∈ refClients pi.
Proof.
  intros st Hc. split.
  - assert (Hr : clients_referencing st).
    { apply run_clients_referencing. intros c' ci'.
      by rewrite clients_initial, lookup_empty. }
    by apply (Hr c ci).
  - intros p Hp.
    assert (Hrefs : refs_consistent st)
      by apply run_refs_consistent, initial_refs_consistent.
    assert (Hin : c ∈ ref_clients_of st p).
    { apply Hrefs. unfold ref_paths_of. by rewrite Hc. }
    unfold ref_clients_of in Hin. destruct (paths st !! p) as [pi|]; [eauto|].
    by apply not_elem_of_empty in Hin.
Qed.

Lemma references_resolve_witness :
  let evs := [EvPlay 1%positive (mkContext (mkUrl "/a") None) "s1";
              EvRecord 1%positive (mkContext (mkUrl "/b") None) "r1";
              EvTeardown 1%positive (mkUrl "/a") "s1"] in
  let st := state_after (initial 0 0) evs in
  let ci := mkClientInfo {[ "/a"; "/b" ]} in
  clients st !! 1%positive = Some ci
  ∧ ∃ pi, paths st !! "/a" = Some pi ∧ 1%positive ∈ refClients pi.
Proof.
  intros evs st ci.
  assert (Hc : clients st !! 1%positive = Some ci) by (vm_compute; reflexivity).
  split; [exact Hc|].
  destruct (references_resolve 0 0 evs 1%positive ci Hc) as [_ Hres].
  apply (Hres "/a"). cbn. set_solver.
Defined.

(** ** What the host is called with *)





